(** * MarkedResponsiveImages: a shallow embedding of [src/index.js]

    The extension turns an image token whose file name follows the
    convention [base__W-H[-EXT](_W-H[-EXT])*.ext] into an [<img>] element
    with a [srcset].  This file embeds the class [MarkedResponsiveImages]
    (constructor, [#parseUrl], [#processVariants], [#generateSrcset],
    [#render]) together with the JavaScript primitives it calls, and proves
    properties of that embedding.

    Conventions of the embedding.
    - A JavaScript string is a [string]; one [ascii] stands for one UTF-16
      code unit in the range 0..255.
    - A JavaScript Number that holds an integer is [Num z], next to [NaN]
      and the two infinities.  An integer read from a string is rounded to
      the nearest double ([to_number]), and a number is printed as
      Number::toString prints it: all its digits up to [MAX_SAFE_INTEGER],
      the shortest digits that denote it beyond, in exponent form from
      1e21 on.
    - A call that may throw returns a [completion]; [try]/[catch] is
      [try_catch].
    - [console.warn] and [console.error] only print; [#render] is embedded
      without them, and [Console.render_console] is [#render] with them. *)

From Stdlib Require Import String Ascii List NArith ZArith Lia Bool Arith.
From Stdlib Require Import Sorting.Sorted Sorting.Permutation.
Import ListNotations.

Local Open Scope list_scope.
Local Open Scope nat_scope.
Local Open Scope string_scope.

(* ================================================================= *)
(** ** JavaScript values and primitives *)

Module JS.

(** Abrupt completions: [Throw] carries the name of the error. *)
Inductive completion (A : Type) : Type :=
| Normal (a : A)
| Throw (e : string).
Arguments Normal {A} a.
Arguments Throw {A} e.

Definition bind {A B} (m : completion A) (f : A -> completion B) : completion B :=
  match m with
  | Normal a => f a
  | Throw e => Throw e
  end.

(** [try { body } catch { handler }] *)
Definition try_catch {A} (body : completion A) (handler : string -> completion A)
  : completion A :=
  match body with
  | Normal a => Normal a
  | Throw e => handler e
  end.

(** A property access on a value that may be [undefined]. *)
Definition defined {A} (o : option A) : completion A :=
  match o with
  | Some a => Normal a
  | None => Throw "TypeError"
  end.

Notation "x <- m ;; k" := (bind m (fun x => k))
  (at level 61, m at next level, right associativity).

(** Numbers: [NaN], a double that holds the integer [z], and the two
    infinities. *)
Inductive number : Type :=
| NaN
| Num (z : Z)
| Infinity (negative : bool).

Definition MAX_SAFE_INTEGER : Z := 2 ^ 53 - 1.

Definition isSafeInteger (n : number) : bool :=
  match n with
  | Num z => (Z.abs z <=? MAX_SAFE_INTEGER)%Z
  | NaN | Infinity _ => false
  end.

(** The double nearest to a natural number: below 2^53 the number itself,
    beyond it the nearest number with a mantissa of 53 bits, the one with
    the even mantissa of two that are as near; [None] when the result is
    beyond the largest double. *)
Definition round_N (n : N) : option N :=
  if (n <? 2 ^ 53)%N then Some n
  else
    let e := (N.log2 n - 52)%N in
    let q := (n / 2 ^ e)%N in
    let r := (n mod 2 ^ e)%N in
    let half := (2 ^ (e - 1))%N in
    let q' := if (half <? r)%N || ((r =? half)%N && N.odd q) then (q + 1)%N else q in
    if (q' * 2 ^ e <? 2 ^ 1024)%N then Some (q' * 2 ^ e)%N else None.

(** The Number value for an integer. *)
Definition to_number (z : Z) : number :=
  match round_N (Z.abs_N z) with
  | Some n => Num (Z.sgn z * Z.of_N n)
  | None => Infinity (z <? 0)%Z
  end.

(** [a - b]: the difference of two doubles is the exact difference,
    rounded. *)
Definition sub (a b : number) : number :=
  match a, b with
  | Num x, Num y => to_number (x - y)
  | Num _, Infinity s => Infinity (negb s)
  | Infinity s, Num _ => Infinity s
  | Infinity s, Infinity t => if Bool.eqb s t then NaN else Infinity s
  | NaN, _ | _, NaN => NaN
  end.

(** *** Strings *)

(** A string in a boolean position: every string but the empty one. *)
Definition truthy (s : string) : bool :=
  match s with
  | EmptyString => false
  | String _ _ => true
  end.

(** [s.startsWith(p)] *)
Definition startsWith (s p : string) : bool := String.prefix p s.

(** [s.slice(1)] *)
Definition slice1 (s : string) : string :=
  match s with
  | EmptyString => EmptyString
  | String _ t => t
  end.

(** [s.split(sep)] for a separator of one character.  The result always
    has at least one element: [''.split('/')] is [['']]. *)
Fixpoint split (sep : ascii) (s : string) : list string :=
  match s with
  | EmptyString => [EmptyString]
  | String c t =>
      if Ascii.eqb c sep then EmptyString :: split sep t
      else match split sep t with
           | [] => [String c EmptyString]
           | h :: r => String c h :: r
           end
  end.

(** [a.pop()], the value returned: [undefined] on an empty array. *)
Definition pop {A} (l : list A) : option A :=
  match rev l with
  | [] => None
  | x :: _ => Some x
  end.

(** [a[i]] *)
Definition at_ {A} (l : list A) (i : nat) : option A := nth_error l i.

(** [a.join(sep)] *)
Fixpoint join (sep : string) (l : list string) : string :=
  match l with
  | [] => EmptyString
  | [x] => x
  | x :: r => x ++ sep ++ join sep r
  end.

(** [s.indexOf(p)], [None] for -1. *)
Fixpoint indexOf (s p : string) : option nat :=
  if String.prefix p s then Some 0
  else match s with
       | EmptyString => None
       | String _ t => option_map S (indexOf t p)
       end.

(** [s.includes(p)] *)
Definition includes (s p : string) : bool :=
  match indexOf s p with
  | Some _ => true
  | None => false
  end.

(** [s.substring(0, n)] and [s.substring(n)] *)
Fixpoint take (n : nat) (s : string) : string :=
  match n, s with
  | S k, String c t => String c (take k t)
  | _, _ => EmptyString
  end.

Fixpoint drop (n : nat) (s : string) : string :=
  match n, s with
  | S k, String _ t => drop k t
  | _, _ => s
  end.

(** GetSubstitution for a string pattern (no capture groups): in the
    replacement text [$$] is a dollar, [$&] the matched text, [$`] the text
    before the match and [$'] the text after it; every other dollar is
    literal. *)
Fixpoint getSubstitution (matched before after template : string) : string :=
  match template with
  | EmptyString => EmptyString
  | String "$" (String "$" t) => String "$" (getSubstitution matched before after t)
  | String "$" (String "&" t) => matched ++ getSubstitution matched before after t
  | String "$" (String "`" t) => before ++ getSubstitution matched before after t
  | String "$" (String "'" t) => after ++ getSubstitution matched before after t
  | String c t => String c (getSubstitution matched before after t)
  end.

(** [s.replace(pattern, replacement)] with a string pattern: only the
    first occurrence is replaced. *)
Definition replace (s pattern replacement : string) : string :=
  match indexOf s pattern with
  | None => s
  | Some i =>
      let before := take i s in
      let after := drop (i + String.length pattern) s in
      before ++ getSubstitution pattern before after replacement ++ after
  end.

(** *** parseInt and number formatting *)

Definition is_digit (c : ascii) : bool :=
  let n := nat_of_ascii c in ((48 <=? n) && (n <=? 57))%nat.

Definition is_alpha (c : ascii) : bool :=
  let n := nat_of_ascii c in
  (((65 <=? n) && (n <=? 90)) || ((97 <=? n) && (n <=? 122)))%nat.

Definition is_alnum (c : ascii) : bool := is_alpha c || is_digit c.

(** Every character of [s] satisfies [f]. *)
Fixpoint all_chars (f : ascii -> bool) (s : string) : bool :=
  match s with
  | EmptyString => true
  | String c t => f c && all_chars f t
  end.

Definition digit_val (c : ascii) : Z := Z.of_nat (nat_of_ascii c - 48).

(** White space skipped by [parseInt]: TAB, LF, VT, FF, CR, SP, NBSP. *)
Definition is_space (c : ascii) : bool :=
  let n := nat_of_ascii c in
  (((9 <=? n) && (n <=? 13)) || (n =? 32) || (n =? 160))%nat.

Fixpoint skip_spaces (s : string) : string :=
  match s with
  | String c t => if is_space c then skip_spaces t else s
  | EmptyString => s
  end.

(** The value of the longest prefix of decimal digits, [None] when that
    prefix is empty. *)
Fixpoint digits_value (acc : option Z) (s : string) : option Z :=
  match s with
  | String c t =>
      if is_digit c
      then digits_value (Some (match acc with Some a => a | None => 0 end * 10
                               + digit_val c)%Z) t
      else acc
  | EmptyString => acc
  end.

(** [parseInt(s, 10)]: the Number value for the integer that the digits
    denote, which is the double nearest to it.  (The specification lets an
    engine read the digits after the twentieth as zeros; V8 rounds the
    integer itself.) *)
Definition parseInt_string (s : string) : number :=
  let s1 := skip_spaces s in
  let '(sign, s2) :=
    match s1 with
    | String "-" t => ((-1)%Z, t)
    | String "+" t => (1%Z, t)
    | _ => (1%Z, s1)
    end in
  match digits_value None s2 with
  | Some v => to_number (sign * v)
  | None => NaN
  end.

(** [parseInt(x, 10)], where [x] may be [undefined]. *)
Definition parseInt (x : option string) : number :=
  match x with
  | Some s => parseInt_string s
  | None => NaN
  end.

Definition digit_char (d : nat) : ascii := ascii_of_nat (48 + d).

(** Decimal digits of a positive number, most significant first. *)
Fixpoint pos_digits (fuel : nat) (n : N) (acc : string) : string :=
  match fuel with
  | O => acc
  | S f =>
      let acc' := String (digit_char (N.to_nat (n mod 10))) acc in
      if (n <? 10)%N then acc' else pos_digits f (n / 10)%N acc'
  end.

Definition N_toString (n : N) : string :=
  pos_digits (S (N.to_nat (N.log2 n))) n EmptyString.

(** Number::toString writes the digits of [s], the least number of [k]
    digits with [s * 10^(n-k)] rounding to the double [x].  For an integer
    [x] of [d] digits, [n] is [d] or [d + 1], and [s] is the quotient of
    [x] by [10^(n-k)] or the number after it. *)
Definition candidates (x : N) (d k : nat) : list (N * nat) :=
  flat_map
    (fun n =>
       let p := (10 ^ N.of_nat (n - k))%N in
       filter
         (fun sn =>
            let s := fst sn in
            (k <=? n)%nat && (10 ^ N.of_nat (k - 1) <=? s)%N && (s <? 10 ^ N.of_nat k)%N
            && match round_N (s * p) with
               | Some y => (y =? x)%N
               | None => false
               end)
         [((x / p)%N, n); ((x / p + 1)%N, n)])
    [d; S d].

Definition distance (x : N) (k : nat) (sn : N * nat) : N :=
  let y := (fst sn * 10 ^ N.of_nat (snd sn - k))%N in
  if (y <? x)%N then (x - y)%N else (y - x)%N.

(** Of several candidates the one closest to [x], the even one of two that
    are as close. *)
Fixpoint closest (x : N) (k : nat) (best : N * nat) (l : list (N * nat)) : N * nat :=
  match l with
  | [] => best
  | c :: r =>
      let db := distance x k best in
      let dc := distance x k c in
      if (dc <? db)%N || ((dc =? db)%N && N.even (fst c) && N.odd (fst best))
      then closest x k c r else closest x k best r
  end.

(** [(s, k, n)] for the least [k] that has a candidate. *)
Fixpoint shortest_from (x : N) (d : nat) (fuel k : nat) : option (N * nat * nat) :=
  match fuel with
  | O => None
  | S f =>
      match candidates x d k with
      | c :: r => let '(s, n) := closest x k c r in Some (s, k, n)
      | [] => shortest_from x d f (S k)
      end
  end.

Fixpoint zeros (n : nat) : string :=
  match n with
  | O => EmptyString
  | S m => String "0" (zeros m)
  end.

(** Number::toString for an integer from 2^53 on: the digits of [s]
    followed by [n - k] zeros when [n <= 21], and otherwise the first digit,
    a dot before the other digits when there are some, [e+] and [n - 1]. *)
Definition big_toString (x : N) : string :=
  let d := String.length (N_toString x) in
  match shortest_from x d 17 1 with
  | None => N_toString x
  | Some (s, k, n) =>
      let ds := N_toString s in
      if (n <=? 21)%nat then ds ++ zeros (n - k)
      else
        match ds with
        | String c EmptyString => String c ("e+" ++ N_toString (N.of_nat (n - 1)))
        | String c t => String c ("." ++ t ++ "e+" ++ N_toString (N.of_nat (n - 1)))
        | EmptyString => ds
        end
  end.

(** Below 2^53 no shorter digits denote an integer than its own without
    the zeros at its end, and it has at most 16 digits: it is printed as
    its decimal numeral. *)
Definition nat_toString (n : N) : string :=
  if (n <? 2 ^ 53)%N then N_toString n else big_toString n.

(** [`${n}`] *)
Definition Number_toString (n : number) : string :=
  match n with
  | NaN => "NaN"
  | Num z =>
      if (z <? 0)%Z then String "-" (nat_toString (Z.to_N (- z)))
      else nat_toString (Z.to_N z)
  | Infinity false => "Infinity"
  | Infinity true => "-Infinity"
  end.

(** *** Array.prototype.sort *)

(** [cmp a b] is the number the comparator returns, and an element moves
    behind another only when that number is greater than zero ([NaN] counts
    as zero).  The sort is a stable insertion sort: it is the result of
    every engine when the comparator is consistent, as a difference of
    numbers none of which is [NaN] is; for an inconsistent comparator the
    order is left to the engine, and [sort] is one of the orders allowed. *)
Definition positive (n : number) : bool :=
  match n with
  | Num z => (0 <? z)%Z
  | Infinity s => negb s
  | NaN => false
  end.

Section Sort.
Context {A : Type} (cmp : A -> A -> number).

Fixpoint insert (x : A) (l : list A) : list A :=
  match l with
  | [] => [x]
  | y :: r => if positive (cmp x y) then y :: insert x r else x :: l
  end.

Fixpoint sort (l : list A) : list A :=
  match l with
  | [] => []
  | x :: r => insert x (sort r)
  end.
End Sort.

End JS.

(* ================================================================= *)
(** ** Regular expressions *)

Module RegExp.

(** Character sets of a pattern. *)
Inductive cset : Type :=
| CDot                       (* .  : anything but a line terminator *)
| CDigit                     (* \d *)
| CChar (c : ascii)          (* a literal character *)
| CNotChar (c : ascii)       (* [^c] *)
| CLowerAlnum.               (* [a-z0-9] *)

Inductive regex : Type :=
| Empty
| Chr (cs : cset)
| Seq (r1 r2 : regex)
| Alt (r1 r2 : regex)
| Star (r : regex)           (* greedy r* *)
| Group (n : nat) (r : regex)(* capturing group number n *)
| Bol                        (* ^ *)
| Eol.                       (* $ *)

Definition Plus (r : regex) : regex := Seq r (Star r).
Definition Opt (r : regex) : regex := Alt r Empty.

Definition in_range (lo hi : nat) (c : ascii) : bool :=
  let n := nat_of_ascii c in ((lo <=? n) && (n <=? hi))%nat.

(** Canonicalize of a case-insensitive match, on code units below 256:
    the upper-case form when that is a single code unit below 256. *)
Definition canonicalize (c : ascii) : ascii :=
  let n := nat_of_ascii c in
  if in_range 97 122 c then ascii_of_nat (n - 32)
  else if (in_range 224 254 c && negb (n =? 247)%nat) then ascii_of_nat (n - 32)
  else c.

Definition is_line_terminator (c : ascii) : bool :=
  let n := nat_of_ascii c in ((n =? 10) || (n =? 13))%nat.

Definition cs_mem (icase : bool) (cs : cset) (c : ascii) : bool :=
  match cs with
  | CDot => negb (is_line_terminator c)
  | CDigit => in_range 48 57 c
  | CChar d =>
      if icase then Ascii.eqb (canonicalize c) (canonicalize d) else Ascii.eqb c d
  | CNotChar d =>
      negb (if icase then Ascii.eqb (canonicalize c) (canonicalize d)
            else Ascii.eqb c d)
  | CLowerAlnum =>
      if icase
      then in_range 48 57 c || in_range 65 90 (canonicalize c)
      else in_range 48 57 c || in_range 97 122 c
  end.

(** Captures: the most recent binding of a group comes first. *)
Definition caps : Type := list (nat * string).

Fixpoint get (n : nat) (c : caps) : option string :=
  match c with
  | [] => None
  | (m, s) :: r => if Nat.eqb m n then Some s else get n r
  end.

Definition kont : Type := nat -> string -> caps -> option (nat * caps).

(** The iterations of a greedy star: one more iteration of the body [mr]
    is tried first, and it must consume something; when that fails the
    continuation runs.  [fuel] bounds the number of iterations by the
    length of the input. *)
Fixpoint star_loop (mr : nat -> string -> caps -> kont -> option (nat * caps))
  (k : kont) (fuel : nat) (pos : nat) (rest : string) (c : caps)
  : option (nat * caps) :=
  match fuel with
  | O => k pos rest c
  | S f =>
      match mr pos rest c
              (fun p s c' => if Nat.eqb p pos then None else star_loop mr k f p s c')
      with
      | Some x => Some x
      | None => k pos rest c
      end
  end.

Section Matcher.
Variable icase : bool.
Variable input : string.

(** A backtracking matcher in continuation-passing style.  [pos] is the
    index of the next character and [rest] the input from there. *)
Fixpoint m (r : regex) (pos : nat) (rest : string) (c : caps) (k : kont)
  : option (nat * caps) :=
  match r with
  | Empty => k pos rest c
  | Chr cs =>
      match rest with
      | EmptyString => None
      | String a t => if cs_mem icase cs a then k (S pos) t c else None
      end
  | Seq r1 r2 => m r1 pos rest c (fun p s c' => m r2 p s c' k)
  | Alt r1 r2 =>
      match m r1 pos rest c k with
      | Some x => Some x
      | None => m r2 pos rest c k
      end
  | Star r1 => star_loop (m r1) k (S (String.length rest)) pos rest c
  | Group n r1 =>
      m r1 pos rest c
        (fun p s c' => k p s ((n, JS.take (p - pos) (JS.drop pos input)) :: c'))
  | Bol => if Nat.eqb pos 0 then k pos rest c else None
  | Eol =>
      match rest with
      | EmptyString => k pos rest c
      | String _ _ => None
      end
  end.

(** The first start index, from [pos] on, at which the pattern matches. *)
Fixpoint search (r : regex) (fuel pos : nat) (rest : string)
  : option (nat * nat * caps) :=
  match m r pos rest [] (fun p _ c => Some (p, c)) with
  | Some (p, c) => Some (pos, p, c)
  | None =>
      match fuel, rest with
      | S f, String _ t => search r f (S pos) t
      | _, _ => None
      end
  end.

(** What a successful run of [m] has done: [matches r pos rest c p s c']
    says that [r] can take the input from index [pos] (text [rest],
    captures [c]) to index [p] (text [s], captures [c']). *)
Inductive matches : regex -> nat -> string -> caps -> nat -> string -> caps -> Prop :=
| M_Empty pos rest c : matches Empty pos rest c pos rest c
| M_Chr cs a pos t c :
    cs_mem icase cs a = true ->
    matches (Chr cs) pos (String a t) c (S pos) t c
| M_Seq r1 r2 pos rest c p1 s1 c1 p2 s2 c2 :
    matches r1 pos rest c p1 s1 c1 ->
    matches r2 p1 s1 c1 p2 s2 c2 ->
    matches (Seq r1 r2) pos rest c p2 s2 c2
| M_AltL r1 r2 pos rest c p s c' :
    matches r1 pos rest c p s c' -> matches (Alt r1 r2) pos rest c p s c'
| M_AltR r1 r2 pos rest c p s c' :
    matches r2 pos rest c p s c' -> matches (Alt r1 r2) pos rest c p s c'
| M_Star0 r pos rest c : matches (Star r) pos rest c pos rest c
| M_StarS r pos rest c p1 s1 c1 p2 s2 c2 :
    matches r pos rest c p1 s1 c1 ->
    matches (Star r) p1 s1 c1 p2 s2 c2 ->
    matches (Star r) pos rest c p2 s2 c2
| M_Group n r pos rest c p s c' :
    matches r pos rest c p s c' ->
    matches (Group n r) pos rest c p s
      ((n, JS.take (p - pos) (JS.drop pos input)) :: c')
| M_Bol rest c : matches Bol 0 rest c 0 rest c
| M_Eol pos c : matches Eol pos EmptyString c pos EmptyString c.

(** The words of a pattern, captures and positions set aside. *)
Inductive lang : regex -> string -> Prop :=
| L_Empty : lang Empty EmptyString
| L_Chr cs a : cs_mem icase cs a = true -> lang (Chr cs) (String a EmptyString)
| L_Seq r1 r2 w1 w2 : lang r1 w1 -> lang r2 w2 -> lang (Seq r1 r2) (w1 ++ w2)
| L_AltL r1 r2 w : lang r1 w -> lang (Alt r1 r2) w
| L_AltR r1 r2 w : lang r2 w -> lang (Alt r1 r2) w
| L_Star0 r : lang (Star r) EmptyString
| L_StarS r w1 w2 : lang r w1 -> lang (Star r) w2 -> lang (Star r) (w1 ++ w2)
| L_Group n r w : lang r w -> lang (Group n r) w
| L_Bol : lang Bol EmptyString
| L_Eol : lang Eol EmptyString.
End Matcher.

(** A pattern without capturing groups. *)
Fixpoint no_group (r : regex) : bool :=
  match r with
  | Empty | Chr _ | Bol | Eol => true
  | Seq r1 r2 | Alt r1 r2 => no_group r1 && no_group r2
  | Star r1 => no_group r1
  | Group _ _ => false
  end.

(** [input.match(re)] for a pattern without the [g] flag: [None] for
    [null], else the array of the whole match and the [ngroups] groups. *)
Definition exec (icase : bool) (ngroups : nat) (r : regex) (input : string)
  : option (list (option string)) :=
  match search icase input r (String.length input) 0 input with
  | None => None
  | Some (start, stop, c) =>
      Some (Some (JS.take (stop - start) (JS.drop start input))
              :: map (fun n => get n c) (seq 1 ngroups))
  end.

End RegExp.

(* ================================================================= *)
(** ** The platform's URL class *)

(** What the program reads from a [URL] object. *)
Record URLObject : Type := mkURL {
  url_origin : string;
  url_pathname : string;
  url_search : string;
  url_hash : string
}.

(** [new URL(href)] and [new URL(href, base)] belong to the platform, not
    to this repository.  The program below takes the constructor as a
    parameter ([None] when it throws), and the general theorems hold for
    every such constructor.  [WhatWG.URL_new] is a model of the URL
    Standard's parser, used to run the program on concrete references.  It
    follows the standard on this fragment, which is all the examples need:
    - references without a scheme, resolved against an [http]/[https] base;
    - [http:] and [https:] URLs whose authority is [host] or [host:port],
      the host made of ASCII letters, digits, [-] and [.], not ending in a
      number and without punycode labels.
    Outside the fragment (other schemes such as [file:], credentials, IP
    addresses, internationalised hosts) it answers [None], where the
    platform may well return a URL: it is not run there. *)
Module WhatWG.

Import JS.

Record url : Type := mk_url {
  scheme : string;
  host : string;
  port : option N;
  path : list string;
  query : option string;
  fragment : option string
}.

Definition code (c : ascii) : nat := nat_of_ascii c.

Definition lower (c : ascii) : ascii :=
  if RegExp.in_range 65 90 c then ascii_of_nat (code c + 32) else c.

Fixpoint map_string (f : ascii -> ascii) (s : string) : string :=
  match s with
  | EmptyString => EmptyString
  | String c t => String (f c) (map_string f t)
  end.

Fixpoint filter_string (f : ascii -> bool) (s : string) : string :=
  match s with
  | EmptyString => EmptyString
  | String c t => if f c then String c (filter_string f t) else filter_string f t
  end.

Fixpoint rev_string (s acc : string) : string :=
  match s with
  | EmptyString => acc
  | String c t => rev_string t (String c acc)
  end.

(** Leading and trailing C0 controls and spaces are removed, then every
    tab and newline. *)
Fixpoint strip_leading (s : string) : string :=
  match s with
  | String c t => if (code c <=? 32)%nat then strip_leading t else s
  | EmptyString => s
  end.

Definition clean (s : string) : string :=
  let s1 := strip_leading s in
  let s2 := rev_string (strip_leading (rev_string s1 "")) "" in
  filter_string (fun c => negb ((code c =? 9) || (code c =? 10) || (code c =? 13))%nat) s2.

(** Percent-encoding (UTF-8 for the code units 128..255). *)
Definition hex_digit (n : nat) : ascii :=
  if (n <? 10)%nat then ascii_of_nat (48 + n) else ascii_of_nat (55 + n).

Definition pct_byte (n : nat) : string :=
  String "%" (String (hex_digit (n / 16)) (String (hex_digit (n mod 16)) "")).

Definition pct (c : ascii) : string :=
  let n := code c in
  if (n <? 128)%nat then pct_byte n
  else pct_byte (192 + n / 64) ++ pct_byte (128 + n mod 64).

Definition in_c0_control_set (c : ascii) : bool :=
  ((code c <? 32) || (126 <? code c))%nat.

Definition one_of (l : list nat) (c : ascii) : bool :=
  existsb (Nat.eqb (code c)) l.

Definition in_fragment_set (c : ascii) : bool :=
  in_c0_control_set c || one_of [32; 34; 60; 62; 96] c.

Definition in_query_set (c : ascii) : bool :=
  in_c0_control_set c || one_of [32; 34; 35; 60; 62] c.

Definition in_special_query_set (c : ascii) : bool :=
  in_query_set c || one_of [39] c.

(** The path set, as Node applies it: [?], [`], [{] and [}] next to the
    query set. *)
Definition in_path_set (c : ascii) : bool :=
  in_query_set c || one_of [63; 96; 123; 125] c.

Fixpoint encode (set : ascii -> bool) (s : string) : string :=
  match s with
  | EmptyString => EmptyString
  | String c t => (if set c then pct c else String c "") ++ encode set t
  end.

(** The text up to the first character of [stop], and what follows that
    character if there is one. *)
Fixpoint cut (stop : ascii -> bool) (s : string) : string * option string :=
  match s with
  | EmptyString => (EmptyString, None)
  | String c t =>
      if stop c then (EmptyString, Some t)
      else let '(a, b) := cut stop t in (String c a, b)
  end.

Definition is_slash (c : ascii) : bool := one_of [47; 92] c.

Fixpoint skip_slashes (s : string) : string :=
  match s with
  | String c t => if is_slash c then skip_slashes t else s
  | EmptyString => s
  end.

Fixpoint split_slashes (s : string) : list string :=
  match s with
  | EmptyString => [EmptyString]
  | String c t =>
      if is_slash c then EmptyString :: split_slashes t
      else match split_slashes t with
           | [] => [String c EmptyString]
           | h :: r => String c h :: r
           end
  end.

Definition single_dot (seg : string) : bool :=
  let l := map_string lower seg in
  String.eqb l "." || String.eqb l "%2e".

Definition double_dot (seg : string) : bool :=
  let l := map_string lower seg in
  String.eqb l ".." || String.eqb l ".%2e" || String.eqb l "%2e."
  || String.eqb l "%2e%2e".

(** The path state: [acc] is the path so far, last segment first. *)
Fixpoint path_state (acc : list string) (segs : list string) : list string :=
  match segs with
  | [] => rev acc
  | [seg] =>
      let b := encode in_path_set seg in
      if double_dot b then rev (EmptyString :: tl acc)
      else if single_dot b then rev (EmptyString :: acc)
      else rev (b :: acc)
  | seg :: rest =>
      let b := encode in_path_set seg in
      if double_dot b then path_state (tl acc) rest
      else if single_dot b then path_state acc rest
      else path_state (b :: acc) rest
  end.

Definition default_port (sch : string) : option N :=
  if String.eqb sch "http" then Some 80%N
  else if String.eqb sch "https" then Some 443%N
  else None.

Fixpoint N_of_digits (acc : N) (s : string) : N :=
  match s with
  | EmptyString => acc
  | String c t => N_of_digits (acc * 10 + N.of_nat (code c - 48))%N t
  end.

(** The last label of a host is a number (decimal or [0x] hexadecimal):
    such a host is an IPv4 address. *)
Definition is_hex (c : ascii) : bool :=
  is_digit c || RegExp.in_range 97 102 (lower c).

Definition ends_in_number (h : string) : bool :=
  let parts := rev (split "." h) in
  let parts := match parts with
               | EmptyString :: (_ :: _) as r => r
               | _ => parts
               end in
  match parts with
  | [] => false
  | l :: _ =>
      (truthy l && all_chars is_digit l)
      || match l with
         | String "0" (String x t) =>
             (Ascii.eqb x "x" || Ascii.eqb x "X") && all_chars is_hex t
         | _ => false
         end
  end.

Definition host_in_fragment (h : string) : bool :=
  truthy h
  && all_chars (fun c => is_alnum c || one_of [45; 46] c) h
  && negb (ends_in_number h)
  && forallb (fun l => negb (String.prefix "xn--" (map_string lower l)))
       (split "." h).

(** The authority states, then the path: [s] starts at the host. *)
Definition authority (sch : string) (s : string) (q f : option string)
  : option url :=
  let '(auth, after) := cut is_slash s in
  let '(h, p) := cut (fun c => Ascii.eqb c ":") auth in
  let segs := split_slashes (match after with Some r => r | None => "" end) in
  if negb (host_in_fragment h) then None
  else
    match p with
    | None | Some EmptyString =>
        Some (mk_url sch (map_string lower h) None (path_state [] segs) q f)
    | Some ds =>
        if all_chars is_digit ds && (N_of_digits 0 ds <=? 65535)%N then
          let n := N_of_digits 0 ds in
          let prt := if match default_port sch with
                        | Some d => N.eqb d n
                        | None => false
                        end then None else Some n in
          Some (mk_url sch (map_string lower h) prt (path_state [] segs) q f)
        else None
    end.

(** The scheme of an input, lower-cased, and the text after its colon. *)
Fixpoint scheme_rest (s : string) : option (string * string) :=
  match s with
  | String ":" t => Some (EmptyString, t)
  | String c t =>
      if is_alnum c || one_of [43; 45; 46] c then
        match scheme_rest t with
        | Some (a, r) => Some (String (lower c) a, r)
        | None => None
        end
      else None
  | EmptyString => None
  end.

Definition scheme_of (s : string) : option (string * string) :=
  match s with
  | String c _ => if is_alpha c then scheme_rest s else None
  | EmptyString => None
  end.

(** The relative state, against the base [b]. *)
Definition relative (b : url) (p : string) (q f : option string)
  (has_query has_fragment : bool) : option url :=
  match p with
  | String c t =>
      if is_slash c then
        match t with
        | String d _ =>
            if is_slash d then authority (scheme b) (skip_slashes t) q f
            else Some (mk_url (scheme b) (host b) (port b)
                         (path_state [] (split_slashes t)) q f)
        | EmptyString =>
            Some (mk_url (scheme b) (host b) (port b)
                    (path_state [] (split_slashes t)) q f)
        end
      else
        Some (mk_url (scheme b) (host b) (port b)
                (path_state (tl (rev (path b))) (split_slashes p)) q f)
  | EmptyString =>
      Some (mk_url (scheme b) (host b) (port b) (path b)
              (if has_query then q else query b) f)
  end.

Definition basic_parse (input : string) (base : option url) : option url :=
  let s := clean input in
  let '(sch, body) :=
    match scheme_of s with
    | Some (sc, r) => (Some sc, r)
    | None => (None, s)
    end in
  let special := match sch with
                 | Some sc => String.eqb sc "http" || String.eqb sc "https"
                 | None => true
                 end in
  let '(pq, frag) := cut (fun c => Ascii.eqb c "#") body in
  let '(p, qry) := cut (fun c => Ascii.eqb c "?") pq in
  let f := option_map (encode in_fragment_set) frag in
  let q := option_map (encode in_special_query_set) qry in
  let has_q := match qry with Some _ => true | None => false end in
  let has_f := match frag with Some _ => true | None => false end in
  match sch, base with
  | None, None => None
  | None, Some b => relative b p q f has_q has_f
  | Some sc, _ =>
      if negb special then None
      else
        match base with
        | Some b =>
            if String.eqb (scheme b) sc && negb (String.prefix "//" p
                                                 || String.prefix "/\" p
                                                 || String.prefix "\/" p
                                                 || String.prefix "\\" p)
            then relative b p q f has_q has_f
            else authority sc (skip_slashes p) q f
        | None => authority sc (skip_slashes p) q f
        end
  end.

Definition serialize_origin (u : url) : string :=
  scheme u ++ "://" ++ host u
  ++ match port u with
     | Some n => ":" ++ N_toString n
     | None => ""
     end.

Definition getters (u : url) : URLObject :=
  {| url_origin := serialize_origin u;
     url_pathname := String.concat "" (map (fun s => "/" ++ s) (path u));
     url_search := match query u with
                   | Some q => if truthy q then "?" ++ q else ""
                   | None => ""
                   end;
     url_hash := match fragment u with
                 | Some h => if truthy h then "#" ++ h else ""
                 | None => ""
                 end |}.

(** [new URL(href)] for [base = None], [new URL(href, b)] for [Some b]. *)
Definition URL_new (href : string) (base : option string) : option URLObject :=
  match base with
  | None => option_map getters (basic_parse href None)
  | Some b =>
      match basic_parse b None with
      | None => None
      | Some bu => option_map getters (basic_parse href (Some bu))
      end
  end.

End WhatWG.

(* ================================================================= *)
(** ** The class MarkedResponsiveImages *)

Module MarkedResponsiveImages.

Import JS RegExp.

(** The [options] object: every property may be absent. *)
Record Options : Type := mkOptions {
  opt_sizes : option string;
  opt_debug : option bool;
  opt_lazy : option bool
}.

(** The private fields [#defaultSizes], [#debug] and [#lazy]. *)
Record Instance : Type := mkInstance {
  defaultSizes : option string;
  debug : bool;
  lazy : bool
}.

(** [x || d] for an optional string and [null]. *)
Definition or_null (x : option string) : option string :=
  match x with
  | Some s => if truthy s then Some s else None
  | None => None
  end.

(** [x || d] for an optional boolean: [x] when it is truthy, else [d]. *)
Definition or_bool (x : option bool) (d : bool) : bool :=
  match x with
  | Some true => true
  | _ => d
  end.

Definition constructor (options : Options) : Instance :=
  {| defaultSizes := or_null (opt_sizes options);
     debug := or_bool (opt_debug options) false;
     lazy := or_bool (opt_lazy options) true |}.

(** [#regex], written here with blanks between its parts and with the
    flag [i]:
      ^ ( .* ) __ ( TOKEN (?: _ TOKEN )* ) ( \. [^.]+ ) $
    where TOKEN is  (?: \d+ - \d+ (?: - [a-z0-9]+ )? ). *)
Definition size_token : regex :=
  Seq (Plus (Chr CDigit))
    (Seq (Chr (CChar "-"))
       (Seq (Plus (Chr CDigit))
          (Opt (Seq (Chr (CChar "-")) (Plus (Chr CLowerAlnum)))))).

Definition size_list : regex :=
  Seq size_token (Star (Seq (Chr (CChar "_")) size_token)).

Definition extension : regex :=
  Seq (Chr (CChar ".")) (Plus (Chr (CNotChar "."))).

Definition regex_ : regex :=
  Seq Bol
    (Seq (Group 1 (Star (Chr CDot)))
       (Seq (Chr (CChar "_"))
          (Seq (Chr (CChar "_"))
             (Seq (Group 2 size_list)
                (Seq (Group 3 extension) Eol))))).

(** [filename.match(this.#regex)] *)
Definition match_ (filename : string) : option (list (option string)) :=
  exec true 3 regex_ filename.

(** The image token handed over by Marked. *)
Record Token : Type := mkToken {
  href : string;
  title : option string;
  text : string
}.

Record ParsedUrl : Type := mkParsed {
  origin : string;
  pathname : string;
  search : string;
  hash : string;
  isAbsolute : bool
}.

Record Variant : Type := mkVariant {
  width : number;
  height : number;
  ext : string;
  token : string
}.

(** What [#render] returns: the markup or [false]. *)
Inductive rendered : Type :=
| Html (markup : string)
| False_.

(** A value in a template literal: [undefined] prints as its name. *)
Definition str (x : option string) : string :=
  match x with
  | Some s => s
  | None => "undefined"
  end.

Definition dq : string := String (ascii_of_nat 34) EmptyString.

(** [#processVariants] *)
Definition decode (originalExtention : string) (tok : string) : Variant :=
  let parts := split "-" tok in
  let width := parseInt (at_ parts 0) in
  let height := parseInt (at_ parts 1) in
  let ext := match at_ parts 2 with
             | Some p => if truthy p then "." ++ p else originalExtention
             | None => originalExtention
             end in
  {| width := width;
     height := height;
     ext := ext;
     token := Number_toString width ++ "-" ++ Number_toString height |}.

Definition by_width (a b : Variant) : number := sub (width a) (width b).

Definition processVariants (sizesPart originalExtention : string) : list Variant :=
  sort by_width (map (decode originalExtention) (split "_" sizesPart)).

(** [#generateSrcset]: the body of the arrow function, one step at a time. *)
Definition lastSegment (pathname : string) : string :=
  str (pop (split "/" pathname)).

Definition variantFilename (base : string) (variant : Variant) : string :=
  base ++ "__" ++ token variant ++ ext variant.

Definition variantPathname (base pathname : string) (variant : Variant) : string :=
  replace pathname (lastSegment pathname) (variantFilename base variant).

Definition cleanPath (originalHref variantPathname : string) : string :=
  let hadLeadingSlash := startsWith originalHref "/" in
  if startsWith variantPathname "/" && negb hadLeadingSlash
  then slice1 variantPathname
  else variantPathname.

Definition finalUrl (base pathname : string) (isAbsolute : bool)
  (origin search hash originalHref : string) (variant : Variant) : string :=
  let vp := variantPathname base pathname variant in
  if isAbsolute then origin ++ vp ++ search ++ hash
  else cleanPath originalHref vp ++ search ++ hash.

Definition srcsetEntry (base pathname : string) (isAbsolute : bool)
  (origin search hash originalHref : string) (variant : Variant) : string :=
  finalUrl base pathname isAbsolute origin search hash originalHref variant
  ++ " " ++ Number_toString (width variant) ++ "w".

Definition generateSrcset (variants : list Variant) (base pathname : string)
  (isAbsolute : bool) (origin search hash originalHref : string) : string :=
  join ", "
    (map (srcsetEntry base pathname isAbsolute origin search hash originalHref)
       variants).

(** The optional attributes and the template literal of [#render]. *)
Definition sizesAttr (this : Instance) : string :=
  match defaultSizes this with
  | Some s => " sizes=" ++ dq ++ s ++ dq
  | None => ""
  end.

Definition titleAttr (tok : Token) : string :=
  match title tok with
  | Some t => if truthy t then " title=" ++ dq ++ t ++ dq else ""
  | None => ""
  end.

Definition lazyLoadingAttr (this : Instance) : string :=
  if lazy this then " loading=" ++ dq ++ "lazy" ++ dq else "".

Definition markup (this : Instance) (tok : Token) (srcset : string)
  (largest : Variant) : string :=
  "<img class=" ++ dq ++ "md-img" ++ dq
  ++ " src=" ++ dq ++ href tok ++ dq
  ++ " srcset=" ++ dq ++ srcset ++ dq
  ++ sizesAttr this
  ++ " width=" ++ dq ++ Number_toString (width largest) ++ dq
  ++ " height=" ++ dq ++ Number_toString (height largest) ++ dq
  ++ " alt=" ++ dq ++ (if truthy (text tok) then text tok else "") ++ dq
  ++ titleAttr tok ++ lazyLoadingAttr this ++ ">".

Section Program.

(** The platform's URL constructor; [None] when it throws. *)
Variable URL : string -> option string -> option URLObject.

(** [#parseUrl] *)
Definition parseUrl (href : string) : option ParsedUrl :=
  match URL href None with
  | Some urlObj =>
      Some {| origin := url_origin urlObj;
              pathname := url_pathname urlObj;
              search := url_search urlObj;
              hash := url_hash urlObj;
              isAbsolute := true |}
  | None =>
      let base := "http://u" in
      match URL href (Some base) with
      | Some urlObj =>
          Some {| origin := "";
                  pathname := url_pathname urlObj;
                  search := url_search urlObj;
                  hash := url_hash urlObj;
                  isAbsolute := false |}
      | None => None
      end
  end.

(** The [try] block of [#render]. *)
Definition render_body (this : Instance) (tok : Token) (p : ParsedUrl)
  (matched : list (option string)) : completion rendered :=
  let base := str (nth 1 matched None) in
  let originalExtention := str (nth 3 matched None) in
  sizesPart <- defined (nth 2 matched None) ;;
  let variants := processVariants sizesPart originalExtention in
  let srcset := generateSrcset variants base (pathname p) (isAbsolute p)
                  (origin p) (search p) (hash p) (href tok) in
  largest <- defined (at_ variants (List.length variants - 1)) ;;
  Normal (Html (markup this tok srcset largest)).

(** [#render] *)
Definition render (this : Instance) (tok : Token) : completion rendered :=
  match parseUrl (href tok) with
  | None => Normal False_
  | Some p =>
      filename <- defined (pop (split "/" (pathname p))) ;;
      match match_ filename with
      | None => Normal False_
      | Some matched =>
          try_catch (render_body this tok p matched) (fun _ => Normal False_)
      end
  end.

End Program.

(** [responsiveImages(options)]: the renderer of a new instance. *)
Definition responsiveImages (URL : string -> option string -> option URLObject)
  (options : Options) (tok : Token) : completion rendered :=
  render URL (constructor options) tok.

End MarkedResponsiveImages.

(* ================================================================= *)
(** ** Vocabulary of the statements *)

Module Convention.

Import JS MarkedResponsiveImages.

(** A non-empty run of decimal digits, and of letters and digits. *)
Definition digits (s : string) : bool := truthy s && all_chars is_digit s.
Definition alnums (s : string) : bool := truthy s && all_chars is_alnum s.

(** [W-H] and [W-H-EXT] *)
Inductive token_shape : string -> Prop :=
| Shape_WH W H :
    digits W = true -> digits H = true -> token_shape (W ++ "-" ++ H)
| Shape_WHE W H E :
    digits W = true -> digits H = true -> alnums E = true ->
    token_shape (W ++ "-" ++ H ++ "-" ++ E).

(** A dot followed by one or more characters that are not dots. *)
Definition extension_shape (e : string) : Prop :=
  exists x, e = "." ++ x /\ truthy x = true
            /\ all_chars (fun c => negb (Ascii.eqb c ".")) x = true.

(** [s] is the decimal numeral of [z]: digits only, no leading zero
    except for zero itself, and the value [z]. *)
Definition decimal_of (z : Z) (s : string) : Prop :=
  digits s = true
  /\ (s = "0" \/ startsWith s "0" = false)
  /\ digits_value None s = Some z.

(** Orders on numbers; [NaN] is not comparable. *)
Definition num_le (a b : number) : Prop :=
  match a, b with
  | Num x, Num y => (x <= y)%Z
  | Infinity true, (Num _ | Infinity _) => True
  | (Num _ | Infinity _), Infinity false => True
  | _, _ => False
  end.

Definition num_pos (a : number) : Prop :=
  match a with
  | Num x => (0 < x)%Z
  | Infinity s => s = false
  | NaN => False
  end.

Definition num_nonneg (a : number) : Prop :=
  match a with
  | Num x => (0 <= x)%Z
  | Infinity s => s = false
  | NaN => False
  end.

Definition width_le (a b : Variant) : Prop := num_le (width a) (width b).

(** All the sizes of a list stay within the safe integers. *)
Definition safe_sizes (sizesPart : string) : bool :=
  forallb (fun v => isSafeInteger (width v) && isSafeInteger (height v))
    (map (decode "") (split "_" sizesPart)).

(** [sep] does not occur in [s]. *)
Definition without (sep : ascii) (s : string) : bool :=
  all_chars (fun c => negb (Ascii.eqb c sep)) s.

(** The width of a variant is an integer that is not negative. *)
Definition has_width (v : Variant) : Prop := num_nonneg (width v).

(** [s.lastIndexOf(p)] *)
Fixpoint lastIndexOf (s p : string) : option nat :=
  match s with
  | EmptyString => if String.prefix p s then Some 0 else None
  | String _ t =>
      match lastIndexOf t p with
      | Some i => Some (S i)
      | None => if String.prefix p s then Some 0 else None
      end
  end.

(** The defaults of the options and a token with the alternative text of
    the examples. *)
Definition no_options : Options := mkOptions None None None.
Definition image (h : string) : Token := mkToken h None "Alt".

(** The references of the examples. *)
Definition photo : string := "img/photo__400-300_800-600.jpg".

Definition photo_parsed : ParsedUrl :=
  {| origin := ""; pathname := "/img/photo__400-300_800-600.jpg";
     search := ""; hash := ""; isAbsolute := false |}.

Definition nested : string :=
  "https://cdn.example.com/pic__100-50_200-100.jpg.d/pic__100-50_200-100.jpg?v=2#x".

Definition dotted : string := ".//x/a__1-2.jpg".



End Convention.

(* ================================================================= *)
(** ** The console and the extension object *)

Module Console.

Import JS MarkedResponsiveImages.

(** A call of [console.warn] or of [console.error]; the latter carries the
    caught error when it is given one. *)
Inductive call : Type :=
| Warn (message : string)
| Error (message : string) (context : option string).

(** [#warn] *)
Definition warn (this : Instance) (message : string) : list call :=
  if debug this then [Warn ("[Marked Responsive Images] " ++ message)] else [].

(** [#error]; a caught error is a truthy [context]. *)
Definition error (this : Instance) (message : string) (context : option string)
  : list call :=
  if debug this then
    match context with
    | Some e => [Error ("[Marked Responsive Images] " ++ message) (Some e)]
    | None => [Error ("[Marked Responsive Images] " ++ message) None]
    end
  else [].

Section Traced.

Variable URL : string -> option string -> option URLObject.

(** [#render] together with what it writes to the console. *)
Definition render_console (this : Instance) (tok : Token)
  : completion rendered * list call :=
  match parseUrl URL (href tok) with
  | None => (Normal False_, warn this ("Could not parse URL: " ++ href tok))
  | Some p =>
      match pop (split "/" (pathname p)) with
      | None => (Throw "TypeError", [])
      | Some filename =>
          match match_ filename with
          | None =>
              (Normal False_,
               if includes filename "__"
               then warn this
                      ("Filename contains '__' but does not match expected pattern: "
                       ++ filename)
               else [])
          | Some matched =>
              match render_body this tok p matched with
              | Normal r => (Normal r, [])
              | Throw e =>
                  (Normal False_,
                   error this ("Error generating HTML for " ++ filename) (Some e))
              end
          end
      end
  end.

(** The object returned by the getter [config]. *)
Record Extension : Type := mkExtension {
  name : string;
  renderer_image : Token -> completion rendered
}.

Definition config (this : Instance) : Extension :=
  {| name := "responsiveImage";
     renderer_image := fun token => render URL this token |}.

End Traced.

End Console.

(* ================================================================= *)
(** ** More vocabulary *)

Module Shape.

Import JS RegExp MarkedResponsiveImages.

(** Every word of the pattern has at least one character. *)
Fixpoint consumes (r : regex) : bool :=
  match r with
  | Chr _ => true
  | Seq r1 r2 => consumes r1 || consumes r2
  | Alt r1 r2 => consumes r1 && consumes r2
  | Group _ r1 => consumes r1
  | Empty | Star _ | Bol | Eol => false
  end.

(** The body of every star consumes something. *)
Fixpoint stars_consume (r : regex) : bool :=
  match r with
  | Seq r1 r2 | Alt r1 r2 => stars_consume r1 && stars_consume r2
  | Star r1 => consumes r1 && stars_consume r1
  | Group _ r1 => stars_consume r1
  | Empty | Chr _ | Bol | Eol => true
  end.

(** Neither groups nor anchors. *)
Fixpoint plain (r : regex) : bool :=
  match r with
  | Empty | Chr _ => true
  | Seq r1 r2 | Alt r1 r2 => plain r1 && plain r2
  | Star r1 => plain r1
  | Group _ _ | Bol | Eol => false
  end.

(** The width of a variant is the integer [w]. *)
Definition width_is (w : Z) (v : Variant) : bool :=
  match width v with
  | Num z => (z =? w)%Z
  | NaN | Infinity _ => false
  end.

(** A base name: no line terminator in it. *)
Definition base_shape (b : string) : bool :=
  all_chars (fun c => negb (is_line_terminator c)) b.

End Shape.
(* ================================================================= *)
(** ** Facts about strings *)

Lemma append_nil_r (s : string) : s ++ "" = s.
Proof. induction s; simpl; congruence. Qed.

Lemma append_assoc (a b c : string) : (a ++ b) ++ c = a ++ b ++ c.
Proof. induction a; simpl; congruence. Qed.

Lemma length_append (a b : string) :
  String.length (a ++ b) = String.length a + String.length b.
Proof. induction a; simpl; congruence. Qed.

Lemma append_inv_head (a b c : string) : a ++ b = a ++ c -> b = c.
Proof. induction a; simpl; intros H; [exact H | injection H; auto]. Qed.

(* ================================================================= *)
(** ** Facts about the regular-expression matcher *)

Section MatcherFacts.
Import RegExp.
Variable icase : bool.
Variable input : string.

Lemma star_loop_sound r k x :
  (forall pos rest c k x,
      m icase input r pos rest c k = Some x ->
      exists p s c', matches icase input r pos rest c p s c' /\ k p s c' = Some x) ->
  forall fuel pos rest c,
    star_loop (m icase input r) k fuel pos rest c = Some x ->
    exists p s c', matches icase input (Star r) pos rest c p s c' /\ k p s c' = Some x.
Proof.
  intros IH fuel.
  induction fuel as [|f IHf]; intros pos rest c H; simpl in H.
  - exists pos, rest, c. split; [constructor | exact H].
  - destruct (m icase input r pos rest c _) as [y|] eqn:E.
    + apply IH in E. destruct E as (p1 & s1 & c1 & Hm & Hk).
      destruct (Nat.eqb p1 pos); [discriminate|].
      injection H as <-.
      apply IHf in Hk. destruct Hk as (p2 & s2 & c2 & Hs & Hk).
      exists p2, s2, c2. split; [econstructor; eassumption | exact Hk].
    + exists pos, rest, c. split; [constructor | exact H].
Qed.

Lemma m_sound r :
  forall pos rest c k x,
    m icase input r pos rest c k = Some x ->
    exists p s c', matches icase input r pos rest c p s c' /\ k p s c' = Some x.
Proof.
  induction r as [|cs|r1 IH1 r2 IH2|r1 IH1 r2 IH2|r IH|n r IH| |];
    intros pos rest c k x H; simpl in H.
  - exists pos, rest, c. split; [constructor | exact H].
  - destruct rest as [|a t]; [discriminate|].
    destruct (cs_mem icase cs a) eqn:E; [|discriminate].
    exists (S pos), t, c. split; [constructor; exact E | exact H].
  - apply IH1 in H. destruct H as (p1 & s1 & c1 & H1 & H).
    apply IH2 in H. destruct H as (p2 & s2 & c2 & H2 & H).
    exists p2, s2, c2. split; [econstructor; eassumption | exact H].
  - destruct (m icase input r1 pos rest c k) as [y|] eqn:E.
    + injection H as <-. apply IH1 in E. destruct E as (p & s & c' & Hm & Hk).
      exists p, s, c'. split; [apply M_AltL; exact Hm | exact Hk].
    + apply IH2 in H. destruct H as (p & s & c' & Hm & Hk).
      exists p, s, c'. split; [apply M_AltR; exact Hm | exact Hk].
  - apply (star_loop_sound r k x IH (S (String.length rest))). exact H.
  - apply IH in H. destruct H as (p & s & c' & Hm & Hk).
    eexists p, s, _. split; [apply M_Group; exact Hm | exact Hk].
  - destruct (Nat.eqb pos 0) eqn:E; [|discriminate].
    apply Nat.eqb_eq in E. subst pos.
    exists 0, rest, c. split; [constructor | exact H].
  - destruct rest; [|discriminate].
    exists pos, EmptyString, c. split; [constructor | exact H].
Qed.

(** A run consumes a word of the pattern's language. *)
Lemma matches_word r pos rest c p s c' :
  matches icase input r pos rest c p s c' ->
  exists w, rest = w ++ s /\ p = pos + String.length w /\ lang icase r w.
Proof.
  induction 1 as
    [ pos rest c
    | cs a pos t c Ha
    | r1 r2 pos rest c p1 s1 c1 p2 s2 c2 _ (w1 & -> & -> & L1) _ (w2 & -> & -> & L2)
    | r1 r2 pos rest c p s c' _ (w & -> & -> & L)
    | r1 r2 pos rest c p s c' _ (w & -> & -> & L)
    | r pos rest c
    | r pos rest c p1 s1 c1 p2 s2 c2 _ (w1 & -> & -> & L1) _ (w2 & -> & -> & L2)
    | n r pos rest c p s c' _ (w & -> & -> & L)
    | rest c
    | pos c ].
  - exists EmptyString. split; [reflexivity|]. split; [simpl; lia | constructor].
  - exists (String a EmptyString).
    split; [reflexivity|]. split; [simpl; lia | constructor; assumption].
  - exists (w1 ++ w2). rewrite append_assoc, length_append.
    split; [reflexivity|]. split; [lia | constructor; assumption].
  - exists w. split; [reflexivity|]. split; [reflexivity | apply L_AltL; assumption].
  - exists w. split; [reflexivity|]. split; [reflexivity | apply L_AltR; assumption].
  - exists EmptyString. split; [reflexivity|]. split; [simpl; lia | constructor].
  - exists (w1 ++ w2). rewrite append_assoc, length_append.
    split; [reflexivity|]. split; [lia | constructor; assumption].
  - exists w. split; [reflexivity|]. split; [reflexivity | constructor; assumption].
  - exists EmptyString. split; [reflexivity|]. split; [reflexivity | constructor].
  - exists EmptyString. split; [reflexivity|]. split; [simpl; lia | constructor].
Qed.

(** A pattern without groups leaves the captures alone. *)
Lemma matches_no_group r pos rest c p s c' :
  matches icase input r pos rest c p s c' -> no_group r = true -> c' = c.
Proof.
  induction 1; simpl; intros Hn; try reflexivity;
    try (apply andb_prop in Hn; destruct Hn as [Hn1 Hn2]); auto.
  - rewrite IHmatches2, IHmatches1; auto.
  - rewrite IHmatches2, IHmatches1; auto.
  - discriminate.
Qed.
End MatcherFacts.

Lemma take_length_append (w s : string) : JS.take (String.length w) (w ++ s) = w.
Proof. induction w; simpl; [destruct s; reflexivity | congruence]. Qed.

Lemma drop_length_append (w s : string) : JS.drop (String.length w) (w ++ s) = s.
Proof. induction w; simpl; [destruct s; reflexivity | assumption]. Qed.

Lemma drop_add (a b : nat) (s : string) : JS.drop (a + b) s = JS.drop b (JS.drop a s).
Proof.
  revert s. induction a as [|a IH]; intros s; simpl.
  - destruct s; reflexivity.
  - destruct s; simpl; [destruct b; reflexivity | apply IH].
Qed.

(** *** Character classes under the flag [i] *)

Ltac ascii_cases a := destruct a as [[] [] [] [] [] [] [] []].

Lemma mem_underscore a : RegExp.cs_mem true (RegExp.CChar "_") a = true -> a = "_"%char.
Proof. ascii_cases a; intros H; try reflexivity; vm_compute in H; discriminate. Qed.

Lemma mem_dash a : RegExp.cs_mem true (RegExp.CChar "-") a = true -> a = "-"%char.
Proof. ascii_cases a; intros H; try reflexivity; vm_compute in H; discriminate. Qed.

Lemma mem_dot a : RegExp.cs_mem true (RegExp.CChar ".") a = true -> a = "."%char.
Proof. ascii_cases a; intros H; try reflexivity; vm_compute in H; discriminate. Qed.

Lemma mem_not_dot a :
  RegExp.cs_mem true (RegExp.CNotChar ".") a = negb (Ascii.eqb a ".").
Proof. ascii_cases a; reflexivity. Qed.

Lemma mem_digit a : RegExp.cs_mem true RegExp.CDigit a = JS.is_digit a.
Proof. reflexivity. Qed.

Lemma mem_alnum a : RegExp.cs_mem true RegExp.CLowerAlnum a = JS.is_alnum a.
Proof. ascii_cases a; reflexivity. Qed.

(** *** The words of the parts of [#regex] *)

Section Words.
Import RegExp JS MarkedResponsiveImages Convention.

Lemma lang_star_chr cs w :
  lang true (Star (Chr cs)) w -> all_chars (cs_mem true cs) w = true.
Proof.
  intros H. remember (Star (Chr cs)) as r eqn:Er.
  induction H as [| | | | | r0 | r0 w1 w2 H1 _ H2 IH2 | | |]; try discriminate.
  - reflexivity.
  - injection Er as ->. inversion H1; subst. simpl.
    rewrite IH2 by reflexivity. rewrite H0. reflexivity.
Qed.

Lemma lang_plus_chr cs w :
  lang true (Plus (Chr cs)) w ->
  truthy w = true /\ all_chars (cs_mem true cs) w = true.
Proof.
  intros H. inversion H as [| |r1 r2 w1 w2 H1 H2| | | | | | |]; subst.
  inversion H1; subst. apply lang_star_chr in H2. simpl.
  rewrite H2. split; [reflexivity|]. rewrite H3. reflexivity.
Qed.

Lemma all_chars_ext f g s :
  (forall c, f c = g c) -> all_chars f s = all_chars g s.
Proof. intros E. induction s; simpl; [reflexivity | rewrite E, IHs; reflexivity]. Qed.

Lemma lang_digits w : lang true (Plus (Chr CDigit)) w -> digits w = true.
Proof.
  intros H. apply lang_plus_chr in H. destruct H as [H1 H2].
  unfold digits. rewrite H1. simpl.
  rewrite <- H2. apply all_chars_ext. intros c. symmetry. apply mem_digit.
Qed.

Lemma lang_alnums w : lang true (Plus (Chr CLowerAlnum)) w -> alnums w = true.
Proof.
  intros H. apply lang_plus_chr in H. destruct H as [H1 H2].
  unfold alnums. rewrite H1. simpl.
  rewrite <- H2. apply all_chars_ext. intros c. symmetry. apply mem_alnum.
Qed.

Lemma lang_chr_inv cs w : lang true (Chr cs) w ->
  exists a, w = String a "" /\ cs_mem true cs a = true.
Proof. intros H. inversion H; subst. eauto. Qed.

Lemma lang_seq_inv r1 r2 w : lang true (Seq r1 r2) w ->
  exists w1 w2, w = w1 ++ w2 /\ lang true r1 w1 /\ lang true r2 w2.
Proof. intros H. inversion H; subst. eauto. Qed.

Lemma lang_size_token t : lang true size_token t -> token_shape t.
Proof.
  unfold size_token. intros H.
  apply lang_seq_inv in H. destruct H as (W & t1 & -> & HW & H).
  apply lang_seq_inv in H. destruct H as (d1 & t2 & -> & Hd1 & H).
  apply lang_seq_inv in H. destruct H as (Hh & t3 & -> & HH & H).
  apply lang_chr_inv in Hd1. destruct Hd1 as (a & -> & Ha). apply mem_dash in Ha. subst a.
  apply lang_digits in HW, HH.
  inversion H as [| | |r1 r2 w HL|r1 r2 w HR| | | | |]; subst.
  - apply lang_seq_inv in HL. destruct HL as (d2 & E & -> & Hd2 & HE).
    apply lang_chr_inv in Hd2. destruct Hd2 as (a & -> & Ha). apply mem_dash in Ha. subst a.
    apply lang_alnums in HE.
    apply Shape_WHE; assumption.
  - inversion HR; subst. rewrite append_nil_r. apply Shape_WH; assumption.
Qed.

Lemma lang_size_list s :
  lang true size_list s ->
  exists t ts, s = join "_" (t :: ts) /\ Forall token_shape (t :: ts).
Proof.
  unfold size_list. intros H.
  apply lang_seq_inv in H. destruct H as (t & rest & -> & Ht & H).
  apply lang_size_token in Ht.
  assert (G : exists ts, Forall token_shape ts /\
                         forall t, t ++ rest = join "_" (t :: ts)).
  { clear t Ht. remember (Star (Seq (Chr (CChar "_")) size_token)) as r eqn:Er.
    induction H as [| | | | | r0 | r0 w1 w2 H1 _ H2 IH2 | | |]; try discriminate.
    - exists []. split; [constructor|]. intros t. simpl. apply append_nil_r.
    - injection Er as ->.
      apply lang_seq_inv in H1. destruct H1 as (u & t1 & -> & Hu & Ht1).
      apply lang_chr_inv in Hu. destruct Hu as (a & -> & Ha).
      apply mem_underscore in Ha. subst a.
      apply lang_size_token in Ht1.
      destruct (IH2 eq_refl) as (ts & Hts & Hj).
      exists (t1 :: ts). split; [constructor; assumption|].
      intros t. change (join "_" (t :: t1 :: ts)) with (t ++ "_" ++ join "_" (t1 :: ts)).
      rewrite <- Hj. reflexivity. }
  destruct G as (ts & Hts & Hj).
  exists t, ts. split; [apply Hj | constructor; assumption].
Qed.

Lemma lang_extension e : lang true extension e -> extension_shape e.
Proof.
  unfold extension. intros H.
  apply lang_seq_inv in H. destruct H as (d & x & -> & Hd & Hx).
  apply lang_chr_inv in Hd. destruct Hd as (a & -> & Ha). apply mem_dot in Ha. subst a.
  apply lang_plus_chr in Hx. destruct Hx as [H1 H2].
  exists x. split; [reflexivity|]. split; [assumption|].
  rewrite (all_chars_ext _ (cs_mem true (CNotChar ".")) x); [exact H2|].
  intros c. symmetry. apply mem_not_dot.
Qed.
End Words.

(** *** What a successful match of [#regex] returns *)

Section MatchSound.
Import RegExp JS MarkedResponsiveImages Convention.

Lemma search_sound icase input r fuel :
  forall pos rest a b c,
    RegExp.search icase input r fuel pos rest = Some (a, b, c) ->
    exists k s, a = pos + k
                /\ matches icase input r a (drop k rest) [] b s c.
Proof.
  induction fuel as [|f IH]; intros pos rest a b c H; simpl in H.
  - destruct (m icase input r pos rest [] _) as [[p c0]|] eqn:E.
    + injection H as <- <- <-. apply m_sound in E.
      destruct E as (p' & s & c' & Hm & Hk). injection Hk as <- <-.
      exists 0, s. split; [lia|]. destruct rest; exact Hm.
    + destruct rest; discriminate.
  - destruct (m icase input r pos rest [] _) as [[p c0]|] eqn:E.
    + injection H as <- <- <-. apply m_sound in E.
      destruct E as (p' & s & c' & Hm & Hk). injection Hk as <- <-.
      exists 0, s. split; [lia|]. destruct rest; exact Hm.
    + destruct rest as [|x t]; [discriminate|].
      apply IH in H. destruct H as (k & s & -> & Hm).
      exists (S k), s. split; [lia | exact Hm].
Qed.

(** A group records the word it consumed. *)
Lemma matches_group input n r pos rest c p s c' :
  matches true input (Group n r) pos rest c p s c' ->
  drop pos input = rest ->
  no_group r = true ->
  exists w, rest = w ++ s /\ p = pos + String.length w /\ lang true r w
            /\ c' = (n, w) :: c /\ drop p input = s.
Proof.
  intros H Hd Hn. subst rest.
  inversion H as [| | | | | | |n0 r0 pos0 rest0 c0 p0 s0 c1 Hm| |]; subst.
  pose proof (matches_no_group _ _ _ _ _ _ _ _ _ Hm Hn) as ->.
  apply matches_word in Hm. destruct Hm as (w & Hw & -> & HL).
  exists w.
  split; [exact Hw|]. split; [reflexivity|]. split; [assumption|].
  replace (pos + String.length w - pos) with (String.length w) by lia.
  rewrite Hw, take_length_append. split; [reflexivity|].
  rewrite drop_add, Hw. apply drop_length_append.
Qed.

Lemma matches_chr input ch pos rest c p s c' :
  matches true input (Chr (CChar ch)) pos rest c p s c' ->
  (forall a, cs_mem true (CChar ch) a = true -> a = ch) ->
  drop pos input = rest ->
  rest = String ch s /\ p = S pos /\ c' = c /\ drop p input = s.
Proof.
  intros H Hc Hd. subst rest.
  inversion H as [|cs a pos0 t c0 Ha| | | | | | | |]; subst.
  rewrite (Hc _ Ha) in *. repeat split; try reflexivity.
  replace (S pos) with (pos + 1) by lia.
  rewrite drop_add. match goal with E : String _ _ = _ |- _ => rewrite <- E end.
  reflexivity.
Qed.

Lemma matches_seq input r1 r2 pos rest c p s c' :
  matches true input (Seq r1 r2) pos rest c p s c' ->
  exists p1 s1 c1, matches true input r1 pos rest c p1 s1 c1
                   /\ matches true input r2 p1 s1 c1 p s c'.
Proof. intros H. inversion H; subst. eauto. Qed.

Lemma matches_bol input pos rest c p s c' :
  matches true input Bol pos rest c p s c' ->
  pos = 0 /\ p = 0 /\ s = rest /\ c' = c.
Proof. intros H. inversion H; subst. auto. Qed.

Lemma matches_eol input pos rest c p s c' :
  matches true input Eol pos rest c p s c' ->
  rest = "" /\ p = pos /\ s = "" /\ c' = c.
Proof. intros H. inversion H; subst. auto. Qed.

Theorem match_sound filename matched :
  match_ filename = Some matched ->
  exists base sizesPart originalExtention,
    matched = [Some filename; Some base; Some sizesPart; Some originalExtention]
    /\ filename = base ++ "__" ++ sizesPart ++ originalExtention
    /\ all_chars (fun c => negb (is_line_terminator c)) base = true
    /\ (exists t ts, sizesPart = join "_" (t :: ts)
                     /\ Forall token_shape (t :: ts))
    /\ extension_shape originalExtention.
Proof.
  unfold match_, exec. intros H.
  destruct (RegExp.search true filename regex_ _ 0 filename) as [[[a b] c]|] eqn:E;
    [|discriminate].
  injection H as <-.
  apply search_sound in E. destruct E as (k & s & -> & Hm). simpl in Hm.
  unfold regex_ in Hm.
  apply matches_seq in Hm. destruct Hm as (p0 & s0 & c0 & HB & Hm).
  apply matches_bol in HB. destruct HB as (Hk & -> & -> & ->).
  subst k. change (drop 0 filename) with filename in Hm.
  assert (D0 : drop 0 filename = filename) by (destruct filename; reflexivity).
  apply matches_seq in Hm. destruct Hm as (p1 & s1 & c1 & HG1 & Hm).
  apply matches_group in HG1; [|exact D0|reflexivity].
  destruct HG1 as (base & Hf & -> & Lb & -> & D1).
  apply matches_seq in Hm. destruct Hm as (p2 & s2 & c2 & HU1 & Hm).
  apply matches_chr in HU1; [|exact mem_underscore|exact D1].
  destruct HU1 as (-> & -> & -> & D2).
  apply matches_seq in Hm. destruct Hm as (p3 & s3 & c3 & HU2 & Hm).
  apply matches_chr in HU2; [|exact mem_underscore|exact D2].
  destruct HU2 as (-> & -> & -> & D3).
  apply matches_seq in Hm. destruct Hm as (p4 & s4 & c4 & HG2 & Hm).
  apply matches_group in HG2; [|exact D3|reflexivity].
  destruct HG2 as (sizes & -> & -> & Ls & -> & D4).
  apply matches_seq in Hm. destruct Hm as (p5 & s5 & c5 & HG3 & Hm).
  apply matches_group in HG3; [|exact D4|reflexivity].
  destruct HG3 as (ext & -> & -> & Le & -> & D5).
  apply matches_eol in Hm. destruct Hm as (-> & -> & -> & ->).
  exists base, sizes, ext.
  rewrite append_nil_r in Hf.
  split.
  { match goal with
    | |- Some (take ?n ?d) :: _ = _ => assert (W : take n d = filename)
    end.
    { change (0 + 0) with 0. rewrite D0, Nat.sub_0_r.
      replace (S (S (0 + String.length base)) + String.length sizes
               + String.length ext) with (String.length filename).
      - rewrite <- (append_nil_r filename) at 2. apply take_length_append.
      - rewrite Hf. rewrite !length_append. simpl. rewrite length_append. lia. }
    rewrite W. reflexivity. }
  split; [exact Hf|].
  split.
  { apply lang_star_chr in Lb. exact Lb. }
  split; [apply lang_size_list; exact Ls | apply lang_extension; exact Le].
Qed.
End MatchSound.

(** *** Splitting and joining *)

Section SplitFacts.
Import JS Convention.

Lemma split_not_nil sep s : split sep s <> [].
Proof.
  destruct s as [|c t]; simpl; [discriminate|].
  destruct (Ascii.eqb c sep); [discriminate|].
  destruct (split sep t); discriminate.
Qed.

Lemma pop_not_nil {A} (l : list A) : l <> [] -> exists x, pop l = Some x.
Proof.
  intros H. unfold pop. destruct (rev l) as [|x r] eqn:E; [|eauto].
  apply (f_equal (@rev A)) in E. rewrite rev_involutive in E. contradiction.
Qed.

Lemma pop_split sep s : exists f, pop (split sep s) = Some f.
Proof. apply pop_not_nil, split_not_nil. Qed.

Lemma split_without sep s : without sep s = true -> split sep s = [s].
Proof.
  induction s as [|c t IH]; simpl; intros H; [reflexivity|].
  apply andb_prop in H. destruct H as [Hc Ht].
  apply negb_true_iff in Hc. rewrite Hc, IH by assumption. reflexivity.
Qed.

Lemma split_append sep a b :
  without sep a = true -> split sep (a ++ String sep b) = a :: split sep b.
Proof.
  induction a as [|c t IH]; simpl; intros H.
  - rewrite Ascii.eqb_refl. reflexivity.
  - apply andb_prop in H. destruct H as [Hc Ht].
    apply negb_true_iff in Hc. rewrite Hc, IH by assumption. reflexivity.
Qed.

Lemma split_join sep t ts :
  Forall (fun x => without sep x = true) (t :: ts) ->
  split sep (join (String sep "") (t :: ts)) = t :: ts.
Proof.
  revert t. induction ts as [|u ts IH]; intros t H.
  - simpl. apply split_without. inversion H; assumption.
  - inversion H as [|? ? Ht Hts]; subst.
    change (join (String sep "") (t :: u :: ts))
      with (t ++ String sep (join (String sep "") (u :: ts))).
    rewrite split_append by assumption. rewrite IH by assumption. reflexivity.
Qed.

Lemma without_append sep a b :
  without sep (a ++ b) = without sep a && without sep b.
Proof.
  unfold without. induction a; simpl; [reflexivity|].
  rewrite IHa. apply andb_assoc.
Qed.

Lemma all_chars_impl (f g : ascii -> bool) s :
  (forall c, f c = true -> g c = true) ->
  all_chars f s = true -> all_chars g s = true.
Proof.
  intros I. induction s; simpl; [reflexivity|]. intros H.
  apply andb_prop in H. destruct H as [H1 H2].
  rewrite (I _ H1), IHs by assumption. reflexivity.
Qed.
End SplitFacts.

(** *** Rounding to a double *)

Section NumberFacts.
Import JS.

Lemma round_N_small n : (n < 2 ^ 53)%N -> round_N n = Some n.
Proof.
  intros H. unfold round_N.
  destruct (N.ltb_spec n (2 ^ 53)); [reflexivity | lia].
Qed.

Lemma round_N_large n v :
  (2 ^ 53 <= n)%N -> round_N n = Some v -> (2 ^ 53 <= v)%N.
Proof.
  intros H. unfold round_N.
  destruct (N.ltb_spec n (2 ^ 53)); [lia|].
  cbv zeta.
  set (e := (N.log2 n - 52)%N).
  set (q := (n / 2 ^ e)%N).
  assert (Hl : (53 <= N.log2 n)%N).
  { change 53%N with (N.log2 (2 ^ 53)). apply N.log2_le_mono. assumption. }
  assert (Hq : (2 ^ 52 <= q)%N).
  { unfold q. apply N.div_le_lower_bound; [apply N.pow_nonzero; lia|].
    rewrite <- N.pow_add_r.
    replace (e + 52)%N with (N.log2 n) by (unfold e; lia).
    apply N.log2_spec. lia. }
  assert (He : (2 ^ 1 <= 2 ^ e)%N).
  { apply N.pow_le_mono_r; [lia | unfold e; lia]. }
  assert (K : forall q', (q <= q')%N -> (2 ^ 53 <= q' * 2 ^ e)%N).
  { intros q' Hq'. change (2 ^ 53)%N with (2 ^ 52 * 2 ^ 1)%N.
    apply N.mul_le_mono; lia. }
  destruct (_ || _).
  - destruct (_ <? _)%N; [|discriminate].
    intros E. injection E as <-. apply K. lia.
  - destruct (_ <? _)%N; [|discriminate].
    intros E. injection E as <-. apply K. lia.
Qed.

Lemma round_N_positive n v : (0 < n)%N -> round_N n = Some v -> (0 < v)%N.
Proof.
  intros H E. destruct (N.lt_ge_cases n (2 ^ 53)) as [L | L].
  - rewrite round_N_small in E by assumption. injection E as <-. exact H.
  - apply round_N_large in E; [|assumption].
    eapply N.lt_le_trans; [|exact E]. reflexivity.
Qed.

Lemma to_number_safe z :
  (Z.abs z <= MAX_SAFE_INTEGER)%Z -> to_number z = Num z.
Proof.
  intros H. unfold to_number. rewrite round_N_small.
  - f_equal. rewrite N2Z.inj_abs_N. destruct z; reflexivity.
  - unfold MAX_SAFE_INTEGER in H.
    apply N2Z.inj_lt. rewrite N2Z.inj_abs_N.
    change (Z.of_N (2 ^ 53)) with (2 ^ 53)%Z. lia.
Qed.

Lemma to_number_is_safe z :
  isSafeInteger (to_number z) = true -> (Z.abs z <= MAX_SAFE_INTEGER)%Z.
Proof.
  unfold to_number.
  destruct (round_N (Z.abs_N z)) as [v|] eqn:E; [|discriminate].
  cbn [isSafeInteger]. intros H. apply Z.leb_le in H.
  destruct (N.lt_ge_cases (Z.abs_N z) (2 ^ 53)) as [L | L].
  - apply N2Z.inj_lt in L. rewrite N2Z.inj_abs_N in L.
    change (Z.of_N (2 ^ 53)) with (2 ^ 53)%Z in L. unfold MAX_SAFE_INTEGER. lia.
  - exfalso. pose proof (round_N_large _ _ L E) as Hv.
    apply N2Z.inj_le in Hv. change (Z.of_N (2 ^ 53)) with (2 ^ 53)%Z in Hv.
    assert (Hz : z <> 0%Z).
    { intros ->. apply L. reflexivity. }
    unfold MAX_SAFE_INTEGER in H.
    rewrite Z.abs_mul in H.
    assert (Z.abs (Z.sgn z) = 1)%Z by (destruct z; [contradiction | |]; reflexivity).
    lia.
Qed.

Lemma positive_to_number z : positive (to_number z) = (0 <? z)%Z.
Proof.
  unfold to_number.
  destruct (round_N (Z.abs_N z)) as [v|] eqn:E; cbn [positive].
  - destruct z as [|p|p]; [reflexivity | |].
    + apply round_N_positive in E; [|reflexivity].
      change (Z.sgn (Z.pos p)) with 1%Z.
      destruct (Z.ltb_spec 0 (1 * Z.of_N v)); [reflexivity | lia].
    + change (Z.sgn (Z.neg p)) with (-1)%Z.
      destruct (Z.ltb_spec 0 (-1 * Z.of_N v)); [lia | reflexivity].
  - destruct z; [discriminate E | reflexivity | reflexivity].
Qed.

Lemma to_number_nonneg z :
  (0 <= z)%Z ->
  (exists v, to_number z = Num v /\ (0 <= v)%Z) \/ to_number z = Infinity false.
Proof.
  intros H. unfold to_number.
  destruct (round_N (Z.abs_N z)) as [v|].
  - left. eexists. split; [reflexivity|].
    destruct z; cbn [Z.sgn]; lia.
  - right. destruct (Z.ltb_spec z 0); [lia | reflexivity].
Qed.
End NumberFacts.

(** *** Decoding a size token *)

Section DecodeFacts.
Import JS MarkedResponsiveImages Convention.

Lemma digit_not_sep c (sep : ascii) :
  (sep = "_" \/ sep = "-")%char ->
  is_alnum c = true -> negb (Ascii.eqb c sep) = true.
Proof.
  intros [-> | ->]; ascii_cases c; intros H; try reflexivity;
    vm_compute in H; discriminate.
Qed.

Lemma is_digit_alnum c : is_digit c = true -> is_alnum c = true.
Proof. unfold is_alnum. intros ->. apply orb_true_r. Qed.

Lemma digits_without sep W :
  (sep = "_" \/ sep = "-")%char -> digits W = true -> without sep W = true.
Proof.
  intros Hs H. apply andb_prop in H. destruct H as [_ H].
  unfold without. revert H. apply all_chars_impl.
  intros c Hc. apply digit_not_sep; [assumption | apply is_digit_alnum, Hc].
Qed.

Lemma alnums_without sep E :
  (sep = "_" \/ sep = "-")%char -> alnums E = true -> without sep E = true.
Proof.
  intros Hs H. apply andb_prop in H. destruct H as [_ H].
  unfold without. revert H. apply all_chars_impl.
  intros c Hc. apply digit_not_sep; assumption.
Qed.

Lemma token_without_underscore t : token_shape t -> without "_" t = true.
Proof.
  intros [W H HW HH | W H E HW HH HE];
    repeat rewrite without_append;
    rewrite ?(digits_without "_" W), ?(digits_without "_" H),
      ?(alnums_without "_" E) by auto; reflexivity.
Qed.

(** [parseInt] on a run of digits. *)
Lemma digits_value_some a s :
  (0 <= a)%Z -> all_chars is_digit s = true ->
  exists z, digits_value (Some a) s = Some z /\ (a <= z)%Z.
Proof.
  revert a. induction s as [|c t IH]; simpl; intros a Ha H.
  - exists a. split; [reflexivity | lia].
  - apply andb_prop in H. destruct H as [Hc Ht]. rewrite Hc.
    assert (0 <= digit_val c)%Z by (unfold digit_val; lia).
    destruct (IH (a * 10 + digit_val c)%Z) as (z & Hz & Hle); [lia | assumption |].
    exists z. split; [exact Hz | lia].
Qed.

Lemma digits_value_digits W :
  digits W = true -> exists z, digits_value None W = Some z /\ (0 <= z)%Z.
Proof.
  intros H. apply andb_prop in H. destruct H as [Hn Ha].
  destruct W as [|c t]; [discriminate|]. simpl in *.
  apply andb_prop in Ha. destruct Ha as [Hc Ht]. rewrite Hc.
  assert (0 <= digit_val c)%Z by (unfold digit_val; lia).
  destruct (digits_value_some (0 * 10 + digit_val c) t) as (z & Hz & Hle);
    [lia | assumption |].
  exists z. split; [exact Hz | lia].
Qed.

Lemma digit_plain c :
  is_digit c = true ->
  is_space c = false /\ c <> "-"%char /\ c <> "+"%char.
Proof.
  ascii_cases c; intros H; try (vm_compute in H; discriminate);
    repeat split; try reflexivity; discriminate.
Qed.

Lemma parseInt_digits W :
  digits W = true ->
  exists z, parseInt (Some W) = to_number z /\ digits_value None W = Some z
            /\ (0 <= z)%Z.
Proof.
  intros H. destruct (digits_value_digits W H) as (z & Hz & Hpos).
  exists z. split; [|split; assumption].
  apply andb_prop in H. destruct H as [Hn Ha].
  destruct W as [|c t]; [discriminate|].
  simpl in Ha. apply andb_prop in Ha. destruct Ha as [Hc _].
  destruct (digit_plain c Hc) as (Hsp & Hm & Hp).
  unfold parseInt, parseInt_string.
  cbn [skip_spaces]. rewrite Hsp.
  assert (E : match String c t with
              | String "-" t0 => ((-1)%Z, t0)
              | String "+" t0 => (1%Z, t0)
              | _ => (1%Z, String c t)
              end = (1%Z, String c t)).
  { clear - Hm Hp. ascii_cases c; try reflexivity; congruence. }
  rewrite E, Hz. f_equal. lia.
Qed.

(** Within the safe integers [parseInt] is exact. *)
Lemma parseInt_safe W :
  digits W = true -> isSafeInteger (parseInt (Some W)) = true ->
  exists z, parseInt (Some W) = Num z /\ digits_value None W = Some z
            /\ (0 <= z <= MAX_SAFE_INTEGER)%Z.
Proof.
  intros H Hs. destruct (parseInt_digits W H) as (z & Hp & Hz & Hpos).
  rewrite Hp in Hs. apply to_number_is_safe in Hs.
  exists z. split; [|split; [exact Hz | lia]].
  rewrite Hp. apply to_number_safe. exact Hs.
Qed.

Lemma decode_WH oe W H :
  digits W = true -> digits H = true ->
  decode oe (W ++ "-" ++ H) =
    {| width := parseInt (Some W);
       height := parseInt (Some H);
       ext := oe;
       token := Number_toString (parseInt (Some W)) ++ "-"
                ++ Number_toString (parseInt (Some H)) |}.
Proof.
  intros HW HH. unfold decode.
  change (W ++ "-" ++ H) with (W ++ String "-" H).
  rewrite split_append by (apply digits_without; auto).
  rewrite split_without by (apply digits_without; auto).
  reflexivity.
Qed.

Lemma decode_WHE oe W H E :
  digits W = true -> digits H = true -> alnums E = true ->
  decode oe (W ++ "-" ++ H ++ "-" ++ E) =
    {| width := parseInt (Some W);
       height := parseInt (Some H);
       ext := "." ++ E;
       token := Number_toString (parseInt (Some W)) ++ "-"
                ++ Number_toString (parseInt (Some H)) |}.
Proof.
  intros HW HH HE. unfold decode.
  change (W ++ "-" ++ H ++ "-" ++ E) with (W ++ String "-" (H ++ String "-" E)).
  rewrite split_append by (apply digits_without; auto).
  rewrite split_append by (apply digits_without; auto).
  rewrite split_without by (apply alnums_without; auto).
  cbn [at_ nth_error].
  apply andb_prop in HE. destruct HE as [-> _]. reflexivity.
Qed.

(** Every decoded variant of a well-formed list has integer sizes that
    are not negative. *)
Lemma decode_shape oe t :
  token_shape t ->
  num_nonneg (width (decode oe t)) /\ num_nonneg (height (decode oe t)).
Proof.
  assert (K : forall W, digits W = true -> num_nonneg (parseInt (Some W))).
  { intros W HW. destruct (parseInt_digits W HW) as (w & -> & _ & Hw).
    destruct (to_number_nonneg w Hw) as [(v & -> & Hv) | ->];
      [exact Hv | reflexivity]. }
  intros [W H HW HH | W H E HW HH HE].
  - rewrite decode_WH by assumption. cbn [width height]. split; apply K; assumption.
  - rewrite decode_WHE by assumption. cbn [width height]. split; apply K; assumption.
Qed.

(** The sizes of a token of a list within the safe integers. *)
Lemma safe_sizes_in sizesPart oe t :
  safe_sizes sizesPart = true -> In t (split "_" sizesPart) ->
  isSafeInteger (width (decode oe t)) = true
  /\ isSafeInteger (height (decode oe t)) = true.
Proof.
  unfold safe_sizes. rewrite forallb_forall. intros H Hin.
  specialize (H (decode "" t) (in_map _ _ _ Hin)).
  apply andb_prop in H. exact H.
Qed.

(** Within the safe integers the sizes of a token are the exact numbers,
    and the token of the variant is made of their numerals. *)
Lemma decode_safe oe t :
  token_shape t ->
  isSafeInteger (width (decode oe t)) = true ->
  isSafeInteger (height (decode oe t)) = true ->
  exists w h,
    width (decode oe t) = Num w /\ height (decode oe t) = Num h
    /\ (0 <= w <= MAX_SAFE_INTEGER)%Z /\ (0 <= h <= MAX_SAFE_INTEGER)%Z
    /\ token (decode oe t)
       = Number_toString (Num w) ++ "-" ++ Number_toString (Num h).
Proof.
  intros Ht Sw Sh. destruct (decode_shape oe t Ht) as [Nw Nh].
  assert (Et : token (decode oe t)
               = Number_toString (width (decode oe t)) ++ "-"
                 ++ Number_toString (height (decode oe t))) by reflexivity.
  destruct (width (decode oe t)) as [|w|]; try discriminate.
  destruct (height (decode oe t)) as [|h|]; try discriminate.
  exists w, h. cbn [isSafeInteger num_nonneg] in *.
  apply Z.leb_le in Sw, Sh.
  split; [reflexivity|]. split; [reflexivity|].
  split; [lia|]. split; [lia | exact Et].
Qed.
End DecodeFacts.

(** *** Sorting by width *)

Section SortFacts.
Import JS MarkedResponsiveImages Convention.

Lemma insert_permutation {A} (cmp : A -> A -> number) x l :
  Permutation (insert cmp x l) (x :: l).
Proof.
  induction l as [|y r IH]; simpl; [apply Permutation_refl|].
  destruct (positive (cmp x y)).
  - eapply Permutation_trans; [apply perm_skip, IH | apply perm_swap].
  - apply Permutation_refl.
Qed.

Lemma sort_permutation {A} (cmp : A -> A -> number) l :
  Permutation (sort cmp l) l.
Proof.
  induction l as [|x r IH]; simpl; [constructor|].
  eapply Permutation_trans; [apply insert_permutation | apply perm_skip, IH].
Qed.







Lemma sort_not_nil {A} (cmp : A -> A -> number) l : l <> [] -> sort cmp l <> [].
Proof.
  intros H E. pose proof (sort_permutation cmp l) as P. rewrite E in P.
  apply Permutation_nil in P. contradiction.
Qed.
End SortFacts.

(** *** Decimal numerals *)

Section NumeralFacts.
Import JS MarkedResponsiveImages Convention.

Lemma digit_char_spec d :
  d < 10 ->
  is_digit (digit_char d) = true /\ digit_val (digit_char d) = Z.of_nat d
  /\ (d <> 0 -> digit_char d <> "0"%char).
Proof.
  intros H.
  do 10 (destruct d as [|d];
         [repeat split; try reflexivity; try congruence; discriminate|]).
  lia.
Qed.

Lemma digit_char_val c : is_digit c = true -> digit_char (Z.to_nat (digit_val c)) = c.
Proof. ascii_cases c; intros H; try reflexivity; vm_compute in H; discriminate. Qed.

Lemma digit_val_range c : is_digit c = true -> (0 <= digit_val c < 10)%Z.
Proof.
  ascii_cases c; intros H; try (vm_compute in H; discriminate);
    vm_compute; split; congruence.
Qed.

Lemma digit_val_zero c : is_digit c = true -> digit_val c = 0%Z -> c = "0"%char.
Proof.
  ascii_cases c; intros H; try (vm_compute in H; discriminate);
    vm_compute; intros E; congruence.
Qed.

Lemma digits_value_append acc s t :
  all_chars is_digit s = true ->
  digits_value acc (s ++ t) = digits_value (digits_value acc s) t.
Proof.
  revert acc. induction s as [|c s IH]; simpl; intros acc H; [reflexivity|].
  apply andb_prop in H. destruct H as [Hc Hs]. rewrite Hc. apply IH, Hs.
Qed.

Lemma all_chars_append f a b :
  all_chars f (a ++ b) = all_chars f a && all_chars f b.
Proof. induction a; simpl; [reflexivity|]. rewrite IHa. apply andb_assoc. Qed.

Lemma truthy_append_l a b : truthy a = true -> truthy (a ++ b) = true.
Proof. destruct a; simpl; [discriminate | reflexivity]. Qed.

Lemma starts_append_l a b p :
  truthy a = true -> startsWith (a ++ b) (String p "") = startsWith a (String p "").
Proof.
  destruct a as [|c a]; simpl; [discriminate|]. intros _.
  unfold startsWith. simpl. destruct (ascii_dec p c); [|reflexivity].
  destruct (a ++ b), a; reflexivity.
Qed.

Lemma single_digit_decimal n :
  (n < 10)%N -> decimal_of (Z.of_N n) (String (digit_char (N.to_nat n)) "").
Proof.
  intros H. rewrite <- (N2Nat.id n) at 1.
  assert (K : N.to_nat n < 10) by lia.
  revert K. generalize (N.to_nat n). intros k K. unfold decimal_of.
  do 10 (destruct k as [|k]; [vm_compute; auto|]).
  lia.
Qed.

Lemma pos_digits_S f n acc :
  pos_digits (S f) n acc =
    if (n <? 10)%N then String (digit_char (N.to_nat (n mod 10))) acc
    else pos_digits f (n / 10) (String (digit_char (N.to_nat (n mod 10))) acc).
Proof. reflexivity. Qed.

(** The digits written by [pos_digits] are the numeral of the number. *)
Lemma pos_digits_spec f :
  forall n acc,
    (n < 10 ^ N.of_nat (S f))%N ->
    exists s, pos_digits (S f) n acc = s ++ acc
              /\ decimal_of (Z.of_N n) s.
Proof.
  induction f as [|f IH]; intros n acc Hn.
  - assert (Hlt : (n <? 10)%N = true) by (apply N.ltb_lt; exact Hn).
    rewrite pos_digits_S, Hlt.
    apply N.ltb_lt in Hlt. rewrite N.mod_small by assumption.
    exists (String (digit_char (N.to_nat n)) "").
    split; [reflexivity | apply single_digit_decimal, Hlt].
  - rewrite pos_digits_S.
    destruct (n <? 10)%N eqn:Hlt.
    + apply N.ltb_lt in Hlt. rewrite N.mod_small by assumption.
      exists (String (digit_char (N.to_nat n)) "").
      split; [reflexivity | apply single_digit_decimal, Hlt].
    + apply N.ltb_ge in Hlt.
      assert (Hq : (n / 10 < 10 ^ N.of_nat (S f))%N).
      { apply N.Div0.div_lt_upper_bound.
        replace (N.of_nat (S (S f))) with (N.succ (N.of_nat (S f))) in Hn by lia.
        rewrite N.pow_succ_r' in Hn. exact Hn. }
      set (d := digit_char (N.to_nat (n mod 10))).
      destruct (IH (n / 10)%N (String d acc) Hq) as (s & Hs & Hdec).
      assert (Hd : N.to_nat (n mod 10) < 10).
      { pose proof (N.mod_upper_bound n 10). lia. }
      destruct (digit_char_spec _ Hd) as (D1 & D2 & D3).
      fold d in D1, D2.
      exists (s ++ String d "").
      split; [rewrite Hs, append_assoc; reflexivity|].
      destruct Hdec as (Hdig & Hcan & Hval).
      apply andb_prop in Hdig. destruct Hdig as [Ht Ha].
      unfold decimal_of, digits.
      rewrite truthy_append_l, all_chars_append, Ha by assumption.
      cbn [all_chars andb]. rewrite D1.
      split; [reflexivity|]. split.
      * right. rewrite starts_append_l by assumption.
        destruct Hcan as [-> | Hc]; [|exact Hc].
        exfalso. cbn in Hval. injection Hval as Hval.
        assert (Hone : (1 <= n / 10)%N) by (apply N.div_le_lower_bound; lia).
        revert Hval Hone. generalize (n / 10)%N. intros q Hval Hone.
        change (digit_val "0") with 0%Z in Hval. lia.
      * rewrite digits_value_append by assumption. rewrite Hval.
        cbn [digits_value]. rewrite D1, D2. f_equal.
        pose proof (N.div_mod n 10). lia.
Qed.

Lemma N_toString_decimal n : decimal_of (Z.of_N n) (N_toString n).
Proof.
  unfold N_toString.
  destruct (pos_digits_spec (N.to_nat (N.log2 n)) n "") as (s & Hs & Hd).
  - rewrite Nat2N.inj_succ, N2Nat.id.
    destruct (N.eq_dec n 0) as [->|Hz]; [reflexivity|].
    eapply N.lt_le_trans; [apply N.log2_spec; lia|].
    apply N.pow_le_mono_l. lia.
  - rewrite Hs, append_nil_r. exact Hd.
Qed.

Lemma nat_toString_safe n : (n < 2 ^ 53)%N -> nat_toString n = N_toString n.
Proof.
  intros H. unfold nat_toString.
  destruct (N.ltb_spec n (2 ^ 53)); [reflexivity | lia].
Qed.

Lemma Number_toString_safe z :
  (0 <= z <= MAX_SAFE_INTEGER)%Z -> Number_toString (Num z) = N_toString (Z.to_N z).
Proof.
  intros H. unfold Number_toString.
  destruct (z <? 0)%Z eqn:E; [apply Z.ltb_lt in E; lia|].
  apply nat_toString_safe. unfold MAX_SAFE_INTEGER in H.
  change (2 ^ 53)%N with (Z.to_N (2 ^ 53)). lia.
Qed.

Lemma Number_toString_decimal z :
  (0 <= z <= MAX_SAFE_INTEGER)%Z -> decimal_of z (Number_toString (Num z)).
Proof.
  intros H. rewrite Number_toString_safe by assumption.
  rewrite <- (Z2N.id z) at 1 by lia. apply N_toString_decimal.
Qed.

(** No number is printed with a dollar sign. *)
Lemma digits_without_dollar (s : string) : digits s = true -> without "$" s = true.
Proof.
  intros H. apply andb_prop in H. destruct H as [_ H].
  unfold without. revert H. apply all_chars_impl.
  intros c. ascii_cases c; intros Hc; try reflexivity; vm_compute in Hc; discriminate.
Qed.

Lemma N_toString_plain n : without "$" (N_toString n) = true.
Proof. apply digits_without_dollar. apply (N_toString_decimal n). Qed.

Lemma zeros_plain k : without "$" (zeros k) = true.
Proof. induction k as [|k IH]; [reflexivity | exact IH]. Qed.

Lemma big_toString_plain x : without "$" (big_toString x) = true.
Proof.
  unfold big_toString.
  destruct (shortest_from x _ 17 1) as [[[s k] n]|]; [|apply N_toString_plain].
  destruct (n <=? 21)%nat.
  - rewrite without_append, N_toString_plain, zeros_plain. reflexivity.
  - pose proof (N_toString_plain s) as H.
    destruct (N_toString s) as [|c t]; [reflexivity|].
    assert (Hc : without "$" (String c "") = true /\ without "$" t = true).
    { change (String c t) with (String c "" ++ t) in H.
      rewrite without_append in H. apply andb_prop in H. exact H. }
    destruct Hc as [Hc Ht].
    destruct t as [|c' t'].
    + change (without "$" (String c "" ++ "e+" ++ N_toString (N.of_nat (n - 1))) = true).
      rewrite !without_append, Hc, N_toString_plain. reflexivity.
    + change (without "$" (String c "" ++ "." ++ String c' t' ++ "e+"
                           ++ N_toString (N.of_nat (n - 1))) = true).
      rewrite !without_append, Hc, Ht, N_toString_plain. reflexivity.
Qed.

Lemma nat_toString_plain n : without "$" (nat_toString n) = true.
Proof.
  unfold nat_toString.
  destruct (n <? 2 ^ 53)%N; [apply N_toString_plain | apply big_toString_plain].
Qed.

Lemma Number_toString_plain n : without "$" (Number_toString n) = true.
Proof.
  destruct n as [|z|[]]; try reflexivity.
  unfold Number_toString. destruct (z <? 0)%Z.
  - change (without "$" ("-" ++ nat_toString (Z.to_N (- z))) = true).
    rewrite without_append, nat_toString_plain. reflexivity.
  - apply nat_toString_plain.
Qed.
End NumeralFacts.

Section NumeralRoundTrip.
Import JS MarkedResponsiveImages Convention.

Lemma string_snoc_ind (P : string -> Prop) :
  P "" -> (forall s c, P s -> P (s ++ String c "")) -> forall s, P s.
Proof.
  intros H0 HS s.
  rewrite <- (string_of_list_ascii_of_string s).
  induction (list_ascii_of_string s) as [|c l IH] using rev_ind; [exact H0|].
  replace (string_of_list_ascii (l ++ [c])%list)
    with (string_of_list_ascii l ++ String c "").
  - apply HS, IH.
  - clear. induction l; simpl; congruence.
Qed.

Lemma leading_digit_value s z :
  digits s = true -> startsWith s "0" = false ->
  digits_value None s = Some z -> (1 <= z)%Z.
Proof.
  intros Hd Hs Hv. apply andb_prop in Hd. destruct Hd as [_ Ha].
  destruct s as [|c t]; [discriminate|].
  cbn [digits_value all_chars] in *.
  apply andb_prop in Ha. destruct Ha as [Hc Ht]. rewrite Hc in Hv.
  pose proof (digit_val_range c Hc) as R.
  assert (digit_val c <> 0)%Z.
  { intros E. apply digit_val_zero in E; [|assumption]. subst c.
    unfold startsWith in Hs. simpl in Hs. destruct t; discriminate. }
  destruct (digits_value_some (0 * 10 + digit_val c) t) as (z' & Hz & Hle);
    [lia | assumption |].
  rewrite Hz in Hv. injection Hv as <-. lia.
Qed.

(** [pos_digits] writes a numeral back as it was. *)
Lemma pos_digits_numeral s :
  forall z f acc,
    decimal_of z s ->
    (Z.to_N z < 10 ^ N.of_nat (S f))%N ->
    pos_digits (S f) (Z.to_N z) acc = s ++ acc.
Proof.
  induction s as [|s c IH] using string_snoc_ind; intros z f acc (Hd & Hc & Hv) Hf.
  - discriminate.
  - apply andb_prop in Hd. destruct Hd as [_ Ha].
    rewrite all_chars_append in Ha. apply andb_prop in Ha.
    destruct Ha as [Hs Hcd]. simpl in Hcd. rewrite andb_true_r in Hcd.
    pose proof (digit_val_range c Hcd) as R.
    rewrite digits_value_append in Hv by assumption.
    destruct s as [|c0 t].
    + simpl in Hv. rewrite Hcd in Hv. injection Hv as <-.
      rewrite pos_digits_S. simpl (0 * 10 + digit_val c)%Z.
      assert (E : (Z.to_N (digit_val c) <? 10)%N = true) by (apply N.ltb_lt; lia).
      rewrite E. rewrite N.mod_small by lia.
      rewrite Z_N_nat, digit_char_val by assumption. reflexivity.
    + assert (Hds : digits (String c0 t) = true).
      { unfold digits. simpl. exact Hs. }
      assert (Hst : startsWith (String c0 t) "0" = false).
      { destruct Hc as [Hc | Hc].
        - destruct t; discriminate.
        - rewrite starts_append_l in Hc by reflexivity. exact Hc. }
      destruct (digits_value_digits _ Hds) as (z' & Hz' & Hpos).
      pose proof (leading_digit_value _ _ Hds Hst Hz') as Hone.
      rewrite Hz' in Hv. simpl in Hv. rewrite Hcd in Hv. injection Hv as <-.
      assert (Hn : Z.to_N (z' * 10 + digit_val c) = (10 * Z.to_N z' + Z.to_N (digit_val c))%N)
        by lia.
      rewrite Hn in *.
      rewrite pos_digits_S.
      assert (E : (10 * Z.to_N z' + Z.to_N (digit_val c) <? 10)%N = false)
        by (apply N.ltb_ge; lia).
      rewrite E.
      assert (Hm : ((10 * Z.to_N z' + Z.to_N (digit_val c)) mod 10
                    = Z.to_N (digit_val c))%N).
      { rewrite N.add_comm, N.mul_comm, N.Div0.mod_add. apply N.mod_small. lia. }
      assert (Hq : ((10 * Z.to_N z' + Z.to_N (digit_val c)) / 10 = Z.to_N z')%N).
      { rewrite N.add_comm, N.mul_comm, N.div_add by lia.
        rewrite N.div_small by lia. reflexivity. }
      rewrite Hm, Hq, Z_N_nat, digit_char_val by assumption.
      destruct f as [|f].
      { exfalso. change (10 ^ N.of_nat 1)%N with 10%N in Hf. lia. }
      rewrite (IH z' f).
      * rewrite append_assoc. reflexivity.
      * split; [exact Hds|]. split; [right; exact Hst | exact Hz'].
      * replace (N.of_nat (S (S f))) with (N.succ (N.of_nat (S f))) in Hf by lia.
        rewrite N.pow_succ_r' in Hf. lia.
Qed.

Theorem Number_toString_numeral z s :
  decimal_of z s -> (z <= MAX_SAFE_INTEGER)%Z -> Number_toString (Num z) = s.
Proof.
  intros H Hmax. pose proof H as (Hd & _ & Hv).
  destruct (digits_value_digits _ Hd) as (z' & Hz' & Hpos).
  rewrite Hz' in Hv. injection Hv as ->.
  rewrite Number_toString_safe by lia.
  unfold N_toString.
  rewrite (pos_digits_numeral s z _ "" H); [apply append_nil_r|].
  rewrite Nat2N.inj_succ, N2Nat.id.
  destruct (N.eq_dec (Z.to_N z) 0) as [->|Hz]; [reflexivity|].
  eapply N.lt_le_trans; [apply N.log2_spec; lia|].
  apply N.pow_le_mono_l. lia.
Qed.
End NumeralRoundTrip.

(** *** The render step on a matched file name *)

Section RenderFacts.
Import JS MarkedResponsiveImages Convention.

Variable URL : string -> option string -> option URLObject.

Lemma pop_lastSegment s : pop (split "/" s) = Some (lastSegment s).
Proof.
  unfold lastSegment. destruct (pop_split "/" s) as (f & ->). reflexivity.
Qed.

Lemma last_defined {A} (l : list A) :
  l <> [] -> exists x, at_ l (List.length l - 1) = Some x.
Proof.
  intros H. unfold at_.
  destruct (nth_error l (List.length l - 1)) as [x|] eqn:E; [eauto|].
  apply nth_error_None in E. destruct l; [contradiction | simpl in E; lia].
Qed.

Lemma processVariants_not_nil sizesPart oe : processVariants sizesPart oe <> [].
Proof.
  unfold processVariants. apply sort_not_nil.
  pose proof (split_not_nil "_" sizesPart) as H.
  destruct (split "_" sizesPart); [contradiction | discriminate].
Qed.

(** The [try] block never throws once the three groups are there. *)
Lemma render_body_normal this tok p whole base sizesPart oe :
  exists largest,
    at_ (processVariants sizesPart oe)
      (List.length (processVariants sizesPart oe) - 1) = Some largest
    /\ render_body this tok p [whole; Some base; Some sizesPart; Some oe]
       = Normal (Html (markup this tok
                         (generateSrcset (processVariants sizesPart oe) base
                            (pathname p) (isAbsolute p) (origin p) (search p)
                            (hash p) (href tok))
                         largest)).
Proof.
  destruct (last_defined _ (processVariants_not_nil sizesPart oe)) as (largest & E).
  exists largest. split; [exact E|].
  unfold render_body. cbn [nth str defined bind]. rewrite E. reflexivity.
Qed.

Lemma render_matched this tok p whole base sizesPart oe :
  parseUrl URL (href tok) = Some p ->
  match_ (lastSegment (pathname p))
    = Some [whole; Some base; Some sizesPart; Some oe] ->
  exists largest,
    at_ (processVariants sizesPart oe)
      (List.length (processVariants sizesPart oe) - 1) = Some largest
    /\ render URL this tok
       = Normal (Html (markup this tok
                         (generateSrcset (processVariants sizesPart oe) base
                            (pathname p) (isAbsolute p) (origin p) (search p)
                            (hash p) (href tok))
                         largest)).
Proof.
  intros Hp Hm.
  destruct (render_body_normal this tok p whole base sizesPart oe) as (largest & E & Hb).
  exists largest. split; [exact E|].
  unfold render. rewrite Hp, pop_lastSegment. cbn [defined bind].
  rewrite Hm, Hb. reflexivity.
Qed.

(** The tokens of a matched size list. *)
Lemma matched_tokens filename whole base sizesPart oe :
  match_ filename = Some [whole; Some base; Some sizesPart; Some oe] ->
  filename = base ++ "__" ++ sizesPart ++ oe
  /\ Forall token_shape (split "_" sizesPart)
  /\ extension_shape oe.
Proof.
  intros H. apply match_sound in H.
  destruct H as (b & s & e & Hl & Hf & _ & (t & ts & Hs & Hts) & He).
  injection Hl as _ <- <- <-.
  split; [exact Hf|]. split; [|exact He].
  rewrite Hs. change "_" with (String "_"%char "") at 1.
  rewrite split_join; [exact Hts|].
  revert Hts. apply Forall_impl. intros x. apply token_without_underscore.
Qed.

Lemma matched_variants filename whole base sizesPart oe :
  match_ filename = Some [whole; Some base; Some sizesPart; Some oe] ->
  Forall (fun v => num_nonneg (width v) /\ num_nonneg (height v))
    (processVariants sizesPart oe).
Proof.
  intros H. apply matched_tokens in H. destruct H as (_ & Ht & _).
  unfold processVariants.
  apply (Permutation_Forall (Permutation_sym (sort_permutation by_width _))).
  apply Forall_map. revert Ht. apply Forall_impl. intros t. apply decode_shape.
Qed.
End RenderFacts.

(* ================================================================= *)
(** ** Properties of the extension *)

Import JS MarkedResponsiveImages Convention.




(** C8, amended.  For a matched file name every decoded variant has a
    width and a height that are greater than or equal to zero. *)
Theorem C8_sizes_not_negative
  (filename : string) (whole : option string)
  (base sizesPart originalExtention : string) :
  match_ filename = Some [whole; Some base; Some sizesPart; Some originalExtention] ->
  Forall (fun v => num_nonneg (width v) /\ num_nonneg (height v))
    (processVariants sizesPart originalExtention).
Proof. intros Hm. eapply matched_variants. exact Hm. Qed.


(** C10, amended.  For a matched file name whose sizes are within the safe
    integers, every token of the name yields a variant, there are no other
    variants, and the size token of each is rebuilt from the parsed numbers:
    it is the decimal numeral of the width, a dash and the decimal numeral
    of the height, and the variant file name is made of it.  So [0400-0300]
    comes back as [400-300]. *)
Theorem C10_token_is_canonical
  (filename : string) (whole : option string)
  (base sizesPart originalExtention : string) :
  match_ filename = Some [whole; Some base; Some sizesPart; Some originalExtention] ->
  safe_sizes sizesPart = true ->
  Permutation (processVariants sizesPart originalExtention)
    (map (decode originalExtention) (split "_" sizesPart))
  /\ split "_" sizesPart <> []
  /\ Forall (fun t =>
              exists w h sw sh,
                In (decode originalExtention t)
                  (processVariants sizesPart originalExtention)
                /\ parseInt (at_ (split "-" t) 0) = Num w
                /\ parseInt (at_ (split "-" t) 1) = Num h
                /\ width (decode originalExtention t) = Num w
                /\ height (decode originalExtention t) = Num h
                /\ decimal_of w sw /\ decimal_of h sh
                /\ token (decode originalExtention t) = sw ++ "-" ++ sh
                /\ variantFilename base (decode originalExtention t)
                   = base ++ "__" ++ sw ++ "-" ++ sh
                     ++ ext (decode originalExtention t))
       (split "_" sizesPart)
  /\ Forall (fun v =>
              exists t w h sw sh,
                In t (split "_" sizesPart)
                /\ v = decode originalExtention t
                /\ width v = Num w /\ height v = Num h
                /\ decimal_of w sw /\ decimal_of h sh
                /\ token v = sw ++ "-" ++ sh
                /\ variantFilename base v = base ++ "__" ++ sw ++ "-" ++ sh ++ ext v)
       (processVariants sizesPart originalExtention)
  /\ token (decode ".jpg" "0400-0300") = "400-300".
Proof.
  intros Hm Hsafe.
  apply matched_tokens in Hm. destruct Hm as (_ & Ht & _).
  assert (K : forall t, In t (split "_" sizesPart) ->
              exists w h sw sh,
                width (decode originalExtention t) = Num w
                /\ height (decode originalExtention t) = Num h
                /\ decimal_of w sw /\ decimal_of h sh
                /\ token (decode originalExtention t) = sw ++ "-" ++ sh
                /\ variantFilename base (decode originalExtention t)
                   = base ++ "__" ++ sw ++ "-" ++ sh
                     ++ ext (decode originalExtention t)).
  { intros t Hin. rewrite Forall_forall in Ht.
    destruct (safe_sizes_in _ originalExtention _ Hsafe Hin) as [Sw Sh].
    destruct (decode_safe originalExtention t (Ht t Hin) Sw Sh)
      as (w & h & Ew & Eh & Bw & Bh & Et).
    exists w, h, (Number_toString (Num w)), (Number_toString (Num h)).
    split; [exact Ew|]. split; [exact Eh|].
    split; [apply Number_toString_decimal; exact Bw|].
    split; [apply Number_toString_decimal; exact Bh|].
    split; [exact Et|].
    unfold variantFilename. rewrite Et. repeat rewrite append_assoc. reflexivity. }
  split; [apply sort_permutation|].
  split; [apply split_not_nil|].
  split; [|split; [|reflexivity]].
  - rewrite Forall_forall. intros t Hin.
    destruct (K t Hin) as (w & h & sw & sh & Ew & Eh & Dw & Dh & Et & Ef).
    exists w, h, sw, sh.
    split.
    { unfold processVariants.
      apply (Permutation_in _ (Permutation_sym (sort_permutation by_width _))).
      apply in_map. exact Hin. }
    split; [exact Ew|]. split; [exact Eh|]. split; [exact Ew|]. split; [exact Eh|].
    split; [exact Dw|]. split; [exact Dh|]. split; [exact Et | exact Ef].
  - unfold processVariants.
    apply (Permutation_Forall (Permutation_sym (sort_permutation by_width _))).
    apply Forall_map. rewrite Forall_forall. intros t Hin.
    destruct (K t Hin) as (w & h & sw & sh & Ew & Eh & Dw & Dh & Et & Ef).
    exists t, w, h, sw, sh.
    split; [exact Hin|]. split; [reflexivity|].
    split; [exact Ew|]. split; [exact Eh|].
    split; [exact Dw|]. split; [exact Dh|]. split; [exact Et | exact Ef].
Qed.

(** The separator occurs in every matched file name. *)
Lemma prefix_append (p s : string) : String.prefix p (p ++ s) = true.
Proof.
  induction p as [|c p IH]; simpl; [destruct s; reflexivity|].
  destruct (ascii_dec c c); [exact IH | contradiction].
Qed.

Lemma indexOf_unfold (s p : string) :
  indexOf s p = if String.prefix p s then Some 0
                else match s with
                     | EmptyString => None
                     | String _ t => option_map S (indexOf t p)
                     end.
Proof. destruct s; reflexivity. Qed.

Lemma includes_append (a p b : string) : includes (a ++ p ++ b) p = true.
Proof.
  unfold includes.
  assert (H : exists i, indexOf (a ++ p ++ b) p = Some i).
  { induction a as [|c a (i & IH)].
    - exists 0. simpl append. rewrite indexOf_unfold, prefix_append. reflexivity.
    - rewrite indexOf_unfold. simpl append.
      destruct (String.prefix p (String c (a ++ p ++ b))); [eauto|].
      rewrite IH. simpl. eauto. }
  destruct H as (i & ->). reflexivity.
Qed.

Lemma match_includes_separator filename matched :
  match_ filename = Some matched -> includes filename "__" = true.
Proof.
  intros H. apply match_sound in H.
  destruct H as (b & s & e & _ & -> & _). apply includes_append.
Qed.

(** C7.  The render step never throws: whatever the URL constructor does
    and whatever the token holds, it returns the markup or [false].  It
    returns [false] when the reference cannot be parsed, when the file name
    has no double underscore, when a file name does not match the pattern,
    and when the [try] block throws. *)
Theorem C7_render_never_throws
  (URL : string -> option string -> option URLObject)
  (this : Instance) (tok : Token) :
  (exists r, render URL this tok = Normal r)
  /\ (parseUrl URL (href tok) = None -> render URL this tok = Normal False_)
  /\ (forall p,
         parseUrl URL (href tok) = Some p ->
         includes (lastSegment (pathname p)) "__" = false ->
         render URL this tok = Normal False_)
  /\ (forall p,
         parseUrl URL (href tok) = Some p ->
         match_ (lastSegment (pathname p)) = None ->
         render URL this tok = Normal False_)
  /\ (forall p matched e,
         parseUrl URL (href tok) = Some p ->
         match_ (lastSegment (pathname p)) = Some matched ->
         render_body this tok p matched = Throw e ->
         render URL this tok = Normal False_).
Proof.
  assert (Hnone : forall p,
             parseUrl URL (href tok) = Some p ->
             match_ (lastSegment (pathname p)) = None ->
             render URL this tok = Normal False_).
  { intros p Hp Hm. unfold render. rewrite Hp, pop_lastSegment.
    cbn [defined bind]. rewrite Hm. reflexivity. }
  split; [|split; [|split; [|split]]].
  - unfold render. destruct (parseUrl URL (href tok)) as [p|]; [|eauto].
    rewrite pop_lastSegment. cbn [defined bind].
    destruct (match_ (lastSegment (pathname p))) as [matched|]; [|eauto].
    destruct (render_body this tok p matched); cbn [try_catch]; eauto.
  - intros Hp. unfold render. rewrite Hp. reflexivity.
  - intros p Hp Hi. apply (Hnone p Hp).
    destruct (match_ (lastSegment (pathname p))) as [matched|] eqn:Hm; [|reflexivity].
    apply match_includes_separator in Hm. congruence.
  - exact Hnone.
  - intros p matched e Hp Hm Hb. unfold render. rewrite Hp, pop_lastSegment.
    cbn [defined bind]. rewrite Hm, Hb. reflexivity.
Qed.

Lemma startsWith_cons (c d : ascii) (s : string) :
  startsWith (String c s) (String d "") = Ascii.eqb c d.
Proof.
  unfold startsWith. simpl. destruct (ascii_dec d c) as [->|N].
  - rewrite Ascii.eqb_refl. destruct s; reflexivity.
  - symmetry. apply Ascii.eqb_neq. congruence.
Qed.

(** C5, amended.  For a matching relative reference whose text does not
    begin with a slash, exactly one leading slash, when there is one, is
    removed from each variant pathname before the query and the fragment
    are appended; so a variant URL does not begin with a slash unless the
    variant pathname begins with two. *)
Theorem C5_one_leading_slash_stripped
  (URL : string -> option string -> option URLObject)
  (this : Instance) (tok : Token) (p : ParsedUrl)
  (whole : option string) (base sizesPart originalExtention : string)
  (v : Variant) :
  parseUrl URL (href tok) = Some p ->
  isAbsolute p = false ->
  startsWith (href tok) "/" = false ->
  match_ (lastSegment (pathname p))
    = Some [whole; Some base; Some sizesPart; Some originalExtention] ->
  (search p = "" \/ startsWith (search p) "?" = true) ->
  (hash p = "" \/ startsWith (hash p) "#" = true) ->
  In v (processVariants sizesPart originalExtention) ->
  finalUrl base (pathname p) (isAbsolute p) (origin p) (search p) (hash p)
    (href tok) v
  = (if startsWith (variantPathname base (pathname p) v) "/"
     then slice1 (variantPathname base (pathname p) v)
     else variantPathname base (pathname p) v)
    ++ search p ++ hash p
  /\ (startsWith (variantPathname base (pathname p) v) "//" = false ->
      startsWith
        (finalUrl base (pathname p) (isAbsolute p) (origin p) (search p) (hash p)
           (href tok) v) "/" = false).
Proof.
  intros _ Habs Hrel _ Hs Hh _.
  unfold finalUrl, cleanPath. rewrite Habs, Hrel. cbn [negb].
  rewrite andb_true_r.
  split; [reflexivity|].
  assert (T : startsWith (search p ++ hash p) "/" = false).
  { destruct Hs as [-> | Hs].
    - simpl. destruct Hh as [-> | Hh]; [reflexivity|].
      destruct (hash p) as [|c t]; [reflexivity|].
      rewrite startsWith_cons in *. apply Ascii.eqb_eq in Hh. subst c. reflexivity.
    - destruct (search p) as [|c t]; [discriminate|]. simpl append.
      rewrite startsWith_cons in *. apply Ascii.eqb_eq in Hs. subst c. reflexivity. }
  destruct (variantPathname base (pathname p) v) as [|c [|d t]].
  - intros _. exact T.
  - intros _. rewrite startsWith_cons.
    destruct (Ascii.eqb c "/") eqn:Ec; [exact T|].
    simpl append. rewrite startsWith_cons. exact Ec.
  - intros H2. rewrite startsWith_cons.
    destruct (Ascii.eqb c "/") eqn:Ec.
    + apply Ascii.eqb_eq in Ec. subst c. cbn [slice1 append].
      rewrite startsWith_cons.
      unfold startsWith in H2. simpl in H2.
      destruct (ascii_dec "/" d) as [<-|N]; [destruct t; discriminate|].
      apply Ascii.eqb_neq. congruence.
    + simpl append. rewrite startsWith_cons. exact Ec.
Qed.

(** *** Where the separator lies in a matched file name *)

Lemma includes_cons (c : ascii) (s p : string) :
  includes (String c s) p = String.prefix p (String c s) || includes s p.
Proof.
  unfold includes. rewrite indexOf_unfold.
  destruct (String.prefix p (String c s)); [reflexivity|].
  destruct (indexOf s p); reflexivity.
Qed.

Lemma prefix_pair (c : ascii) (s : string) :
  String.prefix "__" (String c s) = Ascii.eqb c "_" && startsWith s "_".
Proof.
  unfold startsWith. cbn [String.prefix].
  destruct (ascii_dec "_" c) as [<-|N].
  - rewrite Ascii.eqb_refl. reflexivity.
  - assert (E : Ascii.eqb c "_" = false) by (apply Ascii.eqb_neq; congruence).
    rewrite E. reflexivity.
Qed.

Lemma includes_after_underscore (t : string) :
  startsWith t "_" = false -> includes ("_" ++ t) "__" = includes t "__".
Proof.
  intros H. simpl append. rewrite includes_cons, prefix_pair, H.
  rewrite andb_false_r. reflexivity.
Qed.

Lemma includes_append_clean (a b : string) :
  includes a "__" = false -> startsWith b "_" = false ->
  includes (a ++ b) "__" = includes b "__".
Proof.
  intros Ha Hb. induction a as [|c a IH]; [reflexivity|].
  rewrite includes_cons, prefix_pair in Ha.
  apply orb_false_iff in Ha. destruct Ha as [Hp Ha].
  simpl append. rewrite includes_cons, prefix_pair, (IH Ha).
  destruct (Ascii.eqb c "_"); [|reflexivity].
  simpl in Hp |- *. destruct a as [|d a]; simpl append; [rewrite Hb|rewrite startsWith_cons in *; rewrite Hp]; reflexivity.
Qed.

Lemma lastIndexOf_none (t : string) :
  includes t "__" = false -> lastIndexOf t "__" = None.
Proof.
  induction t as [|c t IH]; intros H; [reflexivity|].
  rewrite includes_cons in H. apply orb_false_iff in H. destruct H as [Hp Ht].
  cbn [lastIndexOf]. rewrite (IH Ht), Hp. reflexivity.
Qed.

Lemma lastIndexOf_separator (a t : string) :
  includes ("_" ++ t) "__" = false ->
  lastIndexOf (a ++ "__" ++ t) "__" = Some (String.length a).
Proof.
  intros H. induction a as [|c a IH].
  - change ("" ++ "__" ++ t) with (String "_" ("_" ++ t)).
    cbn [lastIndexOf]. rewrite (lastIndexOf_none _ H).
    change (String "_" ("_" ++ t)) with ("__" ++ t). rewrite prefix_append. reflexivity.
  - simpl append. cbn [lastIndexOf]. simpl append in IH. rewrite IH. reflexivity.
Qed.

Lemma digits_start (W t : string) :
  digits W = true -> startsWith (W ++ t) "_" = false.
Proof.
  intros H. apply andb_prop in H. destruct H as [Hn Ha].
  destruct W as [|c W]; [discriminate|]. simpl in Ha.
  apply andb_prop in Ha. destruct Ha as [Hc _].
  simpl append. rewrite startsWith_cons.
  apply negb_true_iff. apply digit_not_sep; [left; reflexivity|].
  apply is_digit_alnum, Hc.
Qed.

Lemma token_start (t s : string) :
  token_shape t -> startsWith (t ++ s) "_" = false.
Proof.
  intros [W H HW HH | W H E HW HH HE]; rewrite append_assoc;
    apply digits_start; assumption.
Qed.

Lemma without_includes (t : string) :
  without "_" t = true -> includes t "__" = false.
Proof.
  induction t as [|c t IH]; intros H; [reflexivity|].
  unfold without in H. simpl in H. apply andb_prop in H. destruct H as [Hc Ht].
  rewrite includes_cons, prefix_pair. apply negb_true_iff in Hc. rewrite Hc.
  apply IH, Ht.
Qed.

Lemma includes_skip (a b : string) :
  without "_" a = true -> includes (a ++ b) "__" = includes b "__".
Proof.
  induction a as [|c a IH]; intros H; [reflexivity|].
  unfold without in H. simpl in H. apply andb_prop in H. destruct H as [Hc Ha].
  simpl append. rewrite includes_cons, prefix_pair.
  apply negb_true_iff in Hc. rewrite Hc. apply IH, Ha.
Qed.

Lemma size_list_clean (t : string) (ts : list string) :
  Forall token_shape (t :: ts) ->
  includes (join "_" (t :: ts)) "__" = false
  /\ forall s, startsWith (join "_" (t :: ts) ++ s) "_" = false.
Proof.
  revert t. induction ts as [|u ts IH]; intros t H;
    inversion H as [|? ? Ht Hts]; subst.
  - split; [apply without_includes, token_without_underscore, Ht|].
    intros s. apply token_start, Ht.
  - destruct (IH u Hts) as [Hi Hs].
    change (join "_" (t :: u :: ts)) with (t ++ "_" ++ join "_" (u :: ts)).
    split.
    + rewrite includes_skip by apply token_without_underscore, Ht.
      rewrite includes_after_underscore; [exact Hi|].
      rewrite <- (append_nil_r (join "_" (u :: ts))). apply Hs.
    + intros s. rewrite append_assoc. apply token_start, Ht.
Qed.

(** The base of a matched file name ends at the last double underscore
    that lies before the extension; it ends at the last one of the whole
    name when the extension has none. *)
Theorem separator_is_last_before_extension
  (filename : string) (whole : option string)
  (base sizesPart originalExtention : string) :
  match_ filename = Some [whole; Some base; Some sizesPart; Some originalExtention] ->
  lastIndexOf (base ++ "__" ++ sizesPart) "__" = Some (String.length base)
  /\ (includes originalExtention "__" = false ->
      lastIndexOf filename "__" = Some (String.length base)).
Proof.
  intros H. apply match_sound in H.
  destruct H as (b & s & e & Hl & Hf & _ & (t & ts & Hs & Hts) & (x & He & _)).
  injection Hl as _ <- <- <-.
  destruct (size_list_clean t ts Hts) as [Hi Hst]. rewrite <- Hs in Hi, Hst.
  split.
  - apply lastIndexOf_separator. rewrite includes_after_underscore; [exact Hi|].
    rewrite <- (append_nil_r sizesPart). apply Hst.
  - intros Hx. rewrite Hf. apply lastIndexOf_separator.
    rewrite includes_after_underscore by apply Hst.
    rewrite includes_append_clean; [exact Hx | exact Hi |].
    rewrite He. reflexivity.
Qed.

(** *** Replacing the file name in the pathname *)

Lemma getSubstitution_plain (matched before after template : string) :
  without "$" template = true ->
  getSubstitution matched before after template = template.
Proof.
  induction template as [|c t IH]; intros H; [reflexivity|].
  unfold without in H. cbn [all_chars] in H.
  apply andb_prop in H. destruct H as [Hc Ht].
  specialize (IH Ht).
  revert Hc. ascii_cases c; intros Hc; try discriminate Hc;
    cbn [getSubstitution]; rewrite IH; reflexivity.
Qed.

Lemma drop_all (a b : string) :
  JS.drop (String.length a + String.length b) (a ++ b) = "".
Proof.
  rewrite drop_add, drop_length_append.
  rewrite <- (append_nil_r b) at 2. apply drop_length_append.
Qed.

Lemma replace_last (dir filename replacement : string) :
  indexOf (dir ++ filename) filename = Some (String.length dir) ->
  without "$" replacement = true ->
  replace (dir ++ filename) filename replacement = dir ++ replacement.
Proof.
  intros Hi Hr. unfold replace. rewrite Hi.
  rewrite take_length_append, drop_all, getSubstitution_plain by assumption.
  rewrite append_nil_r. reflexivity.
Qed.

Lemma alnums_without_dollar (s : string) : alnums s = true -> without "$" s = true.
Proof.
  intros H. apply andb_prop in H. destruct H as [_ H].
  unfold without. revert H. apply all_chars_impl.
  intros c. ascii_cases c; intros Hc; try reflexivity; vm_compute in Hc; discriminate.
Qed.

Lemma numeral_without_dollar (W : string) :
  digits W = true -> without "$" (Number_toString (parseInt (Some W))) = true.
Proof. intros _. apply Number_toString_plain. Qed.

Lemma variantFilename_plain (base oe t : string) :
  token_shape t -> without "$" base = true -> without "$" oe = true ->
  without "$" (variantFilename base (decode oe t)) = true.
Proof.
  intros [W H HW HH | W H E HW HH HE] Hb Ho.
  - rewrite decode_WH by assumption. unfold variantFilename. cbn [token ext].
    repeat rewrite without_append.
    rewrite Hb, Ho, !numeral_without_dollar by assumption. reflexivity.
  - rewrite decode_WHE by assumption. unfold variantFilename. cbn [token ext].
    repeat rewrite without_append.
    rewrite Hb, !numeral_without_dollar, (alnums_without_dollar E) by assumption.
    reflexivity.
Qed.

(** When the file name occurs in the pathname only as its last segment,
    and neither the base nor the extension holds a dollar sign, every
    variant URL of an absolute reference is the reference with the last
    segment replaced by the variant file name: origin, directory, query
    and fragment are kept. *)
Theorem variant_urls_keep_the_rest
  (URL : string -> option string -> option URLObject)
  (tok : Token) (p : ParsedUrl) (dir : string)
  (whole : option string) (base sizesPart originalExtention : string)
  (v : Variant) :
  parseUrl URL (href tok) = Some p ->
  isAbsolute p = true ->
  match_ (lastSegment (pathname p))
    = Some [whole; Some base; Some sizesPart; Some originalExtention] ->
  pathname p = dir ++ lastSegment (pathname p) ->
  indexOf (pathname p) (lastSegment (pathname p)) = Some (String.length dir) ->
  without "$" base = true ->
  without "$" originalExtention = true ->
  In v (processVariants sizesPart originalExtention) ->
  finalUrl base (pathname p) (isAbsolute p) (origin p) (search p) (hash p)
    (href tok) v
  = origin p ++ dir ++ variantFilename base v ++ search p ++ hash p.
Proof.
  intros _ Habs Hm Hd Hi Hb Ho Hin.
  apply matched_tokens in Hm. destruct Hm as (_ & Ht & _).
  unfold processVariants in Hin.
  apply (Permutation_in _ (sort_permutation by_width _)) in Hin.
  apply in_map_iff in Hin. destruct Hin as (t & <- & Hin).
  rewrite Forall_forall in Ht. specialize (Ht t Hin).
  unfold finalUrl, variantPathname. rewrite Habs.
  rewrite Hd in Hi |- *.
  set (f := lastSegment (dir ++ lastSegment (pathname p))) in *.
  assert (Ef : f = lastSegment (pathname p)) by (unfold f; rewrite <- Hd; reflexivity).
  rewrite Ef in *.
  rewrite replace_last; [| exact Hi | apply variantFilename_plain; assumption].
  rewrite append_assoc. reflexivity.
Qed.

Lemma variant_urls_keep_the_rest_witness :
  finalUrl "hero" "/a/hero__400-300_800-600.jpg" true "https://example.com"
    "?v=1" "#top" "https://example.com/a/hero__400-300_800-600.jpg?v=1#top"
    (decode ".jpg" "400-300")
  = "https://example.com/a/hero__400-300.jpg?v=1#top".
Proof.
  apply (variant_urls_keep_the_rest WhatWG.URL_new
           (image "https://example.com/a/hero__400-300_800-600.jpg?v=1#top")
           {| origin := "https://example.com";
              pathname := "/a/hero__400-300_800-600.jpg";
              search := "?v=1"; hash := "#top"; isAbsolute := true |}
           "/a/" (Some "hero__400-300_800-600.jpg") "hero" "400-300_800-600" ".jpg"
           (decode ".jpg" "400-300")).
  - vm_compute; reflexivity.
  - reflexivity.
  - vm_compute; reflexivity.
  - vm_compute; reflexivity.
  - vm_compute; reflexivity.
  - reflexivity.
  - reflexivity.
  - vm_compute. left; reflexivity.
Defined.

Lemma separator_is_last_before_extension_witness :
  lastIndexOf "my__pic__1-2_3-4.jpg" "__" = Some (String.length "my__pic").
Proof.
  apply (separator_is_last_before_extension "my__pic__1-2_3-4.jpg"
           (Some "my__pic__1-2_3-4.jpg") "my__pic" "1-2_3-4" ".jpg");
    vm_compute; reflexivity.
Defined.

(** *** The examples *)

(** C1, amended.  For the reference [img/photo__400-300_800-600.jpg] the
    srcset is [img/photo__400-300.jpg 400w, img/photo__800-600.jpg 800w]:
    every variant, the largest too, is named [base__W-H.ext].  The markup
    has [width="800"], [height="600"] and the reference itself as [src]. *)
Theorem C1_photo_example
  (URL : string -> option string -> option URLObject)
  (this : Instance) (title : option string) (alt o : string) :
  URL photo None = None ->
  URL photo (Some "http://u")
    = Some (mkURL o "/img/photo__400-300_800-600.jpg" "" "") ->
  render URL this (mkToken photo title alt)
  = Normal (Html
      ("<img class=" ++ dq ++ "md-img" ++ dq
       ++ " src=" ++ dq ++ "img/photo__400-300_800-600.jpg" ++ dq
       ++ " srcset=" ++ dq
       ++ "img/photo__400-300.jpg 400w, img/photo__800-600.jpg 800w" ++ dq
       ++ sizesAttr this
       ++ " width=" ++ dq ++ "800" ++ dq
       ++ " height=" ++ dq ++ "600" ++ dq
       ++ " alt=" ++ dq ++ (if truthy alt then alt else "") ++ dq
       ++ titleAttr (mkToken photo title alt) ++ lazyLoadingAttr this ++ ">")).
Proof.
  intros H1 H2. unfold render, parseUrl. cbn [href]. rewrite H1, H2.
  reflexivity.
Qed.

Lemma C1_photo_example_witness :
  render WhatWG.URL_new (constructor no_options) (image photo)
  = Normal (Html
      ("<img class=" ++ dq ++ "md-img" ++ dq
       ++ " src=" ++ dq ++ "img/photo__400-300_800-600.jpg" ++ dq
       ++ " srcset=" ++ dq
       ++ "img/photo__400-300.jpg 400w, img/photo__800-600.jpg 800w" ++ dq
       ++ " width=" ++ dq ++ "800" ++ dq
       ++ " height=" ++ dq ++ "600" ++ dq
       ++ " alt=" ++ dq ++ "Alt" ++ dq
       ++ " loading=" ++ dq ++ "lazy" ++ dq ++ ">")).
Proof.
  apply (C1_photo_example WhatWG.URL_new (constructor no_options) None "Alt"
           "http://u"); vm_compute; reflexivity.
Defined.

(** C1 as stated fails: the srcset of the example does not end with the
    original file name. *)
Lemma C1_counterexample :
  ~ (exists m,
        responsiveImages WhatWG.URL_new no_options (image photo) = Normal (Html m)
        /\ includes m
             ("srcset=" ++ dq
              ++ "img/photo__400-300.jpg 400w, img/photo__400-300_800-600.jpg 800w"
              ++ dq) = true).
Proof.
  intros (m & H & Hi). vm_compute in H. injection H as <-.
  vm_compute in Hi. discriminate.
Qed.

(** C2.  The constructor computes [options.lazy || true], which is [true]
    for every value of the option; with [lazy: false] the markup still
    carries [loading="lazy"]. *)
Theorem C2_lazy_false_is_overridden :
  (forall options, lazy (constructor options) = true)
  /\ responsiveImages WhatWG.URL_new (mkOptions None None (Some false))
       (image "img/photo__400-300.jpg")
     = Normal (Html
         ("<img class=" ++ dq ++ "md-img" ++ dq
          ++ " src=" ++ dq ++ "img/photo__400-300.jpg" ++ dq
          ++ " srcset=" ++ dq ++ "img/photo__400-300.jpg 400w" ++ dq
          ++ " width=" ++ dq ++ "400" ++ dq
          ++ " height=" ++ dq ++ "300" ++ dq
          ++ " alt=" ++ dq ++ "Alt" ++ dq
          ++ " loading=" ++ dq ++ "lazy" ++ dq ++ ">")).
Proof.
  split; [|vm_compute; reflexivity].
  intros [s d [[|]|]]; reflexivity.
Qed.

(** C3.  [pathname.replace(filename, ...)] replaces the first occurrence
    of the file name.  When the file name also occurs earlier in the
    pathname, the variant URLs differ from the input in that earlier
    segment and keep the final segment as it was. *)
Theorem C3_first_occurrence_is_replaced :
  parseUrl WhatWG.URL_new nested
  = Some {| origin := "https://cdn.example.com";
            pathname := "/pic__100-50_200-100.jpg.d/pic__100-50_200-100.jpg";
            search := "?v=2"; hash := "#x"; isAbsolute := true |}
  /\ match_ "pic__100-50_200-100.jpg"
     = Some [Some "pic__100-50_200-100.jpg"; Some "pic"; Some "100-50_200-100";
             Some ".jpg"]
  /\ map (finalUrl "pic" "/pic__100-50_200-100.jpg.d/pic__100-50_200-100.jpg" true
            "https://cdn.example.com" "?v=2" "#x" nested)
       (processVariants "100-50_200-100" ".jpg")
     = ["https://cdn.example.com/pic__100-50.jpg.d/pic__100-50_200-100.jpg?v=2#x";
        "https://cdn.example.com/pic__200-100.jpg.d/pic__100-50_200-100.jpg?v=2#x"]
  /\ responsiveImages WhatWG.URL_new no_options (image nested)
     = Normal (Html
         ("<img class=" ++ dq ++ "md-img" ++ dq
          ++ " src=" ++ dq ++ nested ++ dq
          ++ " srcset=" ++ dq
          ++ "https://cdn.example.com/pic__100-50.jpg.d/pic__100-50_200-100.jpg?v=2#x 100w, "
          ++ "https://cdn.example.com/pic__200-100.jpg.d/pic__100-50_200-100.jpg?v=2#x 200w"
          ++ dq
          ++ " width=" ++ dq ++ "200" ++ dq
          ++ " height=" ++ dq ++ "100" ++ dq
          ++ " alt=" ++ dq ++ "Alt" ++ dq
          ++ " loading=" ++ dq ++ "lazy" ++ dq ++ ">")).
Proof. repeat split; vm_compute; reflexivity. Qed.

(** C4.  In [a__1-2.j__pg] the double underscore occurs twice, the last
    time at index 8, inside the extension.  The pattern matches with the
    base [a], which ends at the first occurrence, and the size list
    [1-2]. *)
Theorem C4_base_ends_at_an_earlier_separator :
  match_ "a__1-2.j__pg"
  = Some [Some "a__1-2.j__pg"; Some "a"; Some "1-2"; Some ".j__pg"]
  /\ lastIndexOf "a__1-2.j__pg" "__" = Some 8
  /\ indexOf "a__1-2.j__pg" "__" = Some (String.length "a")
  /\ parseUrl WhatWG.URL_new "img/a__1-2.j__pg"
     = Some {| origin := ""; pathname := "/img/a__1-2.j__pg";
               search := ""; hash := ""; isAbsolute := false |}.
Proof. repeat split; vm_compute; reflexivity. Qed.

(** C5 as stated fails: [.//x/a__1-2.jpg] does not begin with a slash,
    its pathname is [//x/a__1-2.jpg], and the variant URL is
    [/x/a__1-2.jpg]. *)
Lemma C5_counterexample :
  ~ (forall p whole base sizesPart originalExtention,
        parseUrl WhatWG.URL_new dotted = Some p ->
        isAbsolute p = false ->
        startsWith dotted "/" = false ->
        match_ (lastSegment (pathname p))
          = Some [whole; Some base; Some sizesPart; Some originalExtention] ->
        Forall (fun v =>
                  startsWith
                    (finalUrl base (pathname p) (isAbsolute p) (origin p)
                       (search p) (hash p) dotted v) "/" = false)
          (processVariants sizesPart originalExtention)).
Proof.
  intros H.
  specialize (H {| origin := ""; pathname := "//x/a__1-2.jpg"; search := "";
                   hash := ""; isAbsolute := false |}
                (Some "a__1-2.jpg") "a" "1-2" ".jpg"
                eq_refl eq_refl eq_refl eq_refl).
  vm_compute in H. inversion H as [|v l Hv Hl]. discriminate.
Qed.

Lemma C5_one_leading_slash_stripped_witness :
  startsWith
    (finalUrl "photo" "/img/photo__400-300_800-600.jpg" false "" "" "" photo
       (decode ".jpg" "400-300")) "/" = false.
Proof.
  apply (C5_one_leading_slash_stripped WhatWG.URL_new (constructor no_options)
           (image photo) photo_parsed (Some "photo__400-300_800-600.jpg")
           "photo" "400-300_800-600" ".jpg" (decode ".jpg" "400-300")).
  - vm_compute; reflexivity.
  - reflexivity.
  - reflexivity.
  - vm_compute; reflexivity.
  - left; reflexivity.
  - left; reflexivity.
  - vm_compute. left; reflexivity.
  - vm_compute; reflexivity.
Defined.


Lemma C7_render_never_throws_witness :
  includes "regular-image.jpg" "__" = false
  /\ render WhatWG.URL_new (constructor no_options) (image "assets/regular-image.jpg")
     = Normal False_.
Proof.
  split; [reflexivity|].
  apply (proj1 (proj2 (proj2
           (C7_render_never_throws WhatWG.URL_new (constructor no_options)
              (image "assets/regular-image.jpg"))))
           {| origin := ""; pathname := "/assets/regular-image.jpg";
              search := ""; hash := ""; isAbsolute := false |});
    vm_compute; reflexivity.
Defined.

(** C8 as stated fails: [a__0-0.jpg] matches and decodes to a variant of
    width 0 and height 0. *)
Lemma C8_counterexample :
  ~ (forall whole base sizesPart originalExtention,
        match_ "a__0-0.jpg"
          = Some [whole; Some base; Some sizesPart; Some originalExtention] ->
        Forall (fun v => num_pos (width v) /\ num_pos (height v))
          (processVariants sizesPart originalExtention)).
Proof.
  intros H.
  specialize (H (Some "a__0-0.jpg") "a" "0-0" ".jpg" eq_refl).
  vm_compute in H. inversion H as [|v l [Hw _] Hl]. discriminate.
Qed.

Lemma C8_sizes_not_negative_witness :
  Forall (fun v => num_nonneg (width v) /\ num_nonneg (height v))
    (processVariants "0-0_20-10" ".jpg").
Proof.
  apply (C8_sizes_not_negative "a__0-0_20-10.jpg" (Some "a__0-0_20-10.jpg") "a"
           "0-0_20-10" ".jpg"); vm_compute; reflexivity.
Defined.


Lemma C10_token_is_canonical_witness :
  match_ "a__0400-0300_020-10.jpg"
  = Some [Some "a__0400-0300_020-10.jpg"; Some "a"; Some "0400-0300_020-10";
          Some ".jpg"]
  /\ List.length (processVariants "0400-0300_020-10" ".jpg") = 2
  /\ In (decode ".jpg" "0400-0300") (processVariants "0400-0300_020-10" ".jpg")
  /\ variantFilename "a" (decode ".jpg" "0400-0300") = "a__400-300.jpg".
Proof.
  split; [vm_compute; reflexivity|].
  pose proof (C10_token_is_canonical "a__0400-0300_020-10.jpg"
                (Some "a__0400-0300_020-10.jpg") "a" "0400-0300_020-10" ".jpg"
                eq_refl eq_refl) as (P & _ & F & _ & _).
  split; [rewrite (Permutation_length P); reflexivity|].
  change (split "_" "0400-0300_020-10") with ["0400-0300"; "020-10"] in F.
  inversion F as [|t l (w & h & sw & sh & Hin & _) _].
  split; [exact Hin | reflexivity].
Defined.

(** C10 as stated fails beyond the safe integers: the width of
    [a__100000000000000000000000-1.jpg] is written [1e+23], so that the
    variant file name is [a__1e+23-1.jpg], which is made of no numeral of a
    width. *)
Lemma C10_counterexample :
  ~ (forall whole base sizesPart originalExtention,
        match_ "a__100000000000000000000000-1.jpg"
          = Some [whole; Some base; Some sizesPart; Some originalExtention] ->
        Forall (fun v =>
                  exists w h sw sh,
                    width v = Num w /\ height v = Num h
                    /\ decimal_of w sw /\ decimal_of h sh
                    /\ variantFilename base v
                       = base ++ "__" ++ sw ++ "-" ++ sh ++ ext v)
          (processVariants sizesPart originalExtention)).
Proof.
  intros H.
  specialize (H (Some "a__100000000000000000000000-1.jpg") "a"
                "100000000000000000000000-1" ".jpg" eq_refl).
  assert (E : processVariants "100000000000000000000000-1" ".jpg"
              = [{| width := Num 99999999999999991611392; height := Num 1;
                    ext := ".jpg"; token := "1e+23-1" |}])
    by (vm_compute; reflexivity).
  rewrite E in H. clear E.
  inversion H as [|v l (w & h & sw & sh & _ & _ & (Dw & _) & _ & Hf) Hl].
  clear - Dw Hf. unfold variantFilename in Hf. cbn [token ext] in Hf.
  apply andb_prop in Dw. destruct Dw as [Hn Hd].
  destruct sw as [|c sw]; [discriminate Hn|].
  cbn [append] in Hf. injection Hf as <- Hf.
  destruct sw as [|c sw]; [discriminate Hf|].
  cbn [append] in Hf. injection Hf as <- _.
  vm_compute in Hd. discriminate Hd.
Qed.

(* ================================================================= *)
(** ** The pattern accepts the file names of the convention *)

Section MatcherComplete.
Import RegExp Shape.
Variable icase : bool.
Variable input : string.

Lemma lang_consumes r w :
  lang icase r w -> consumes r = true -> truthy w = true.
Proof.
  induction 1 as [|cs a Ha|r1 r2 w1 w2 _ IH1 _ IH2|r1 r2 w _ IH|r1 r2 w _ IH
                 |r|r w1 w2 _ _ _ _|n r w _ IH| |]; simpl; intros Hc;
    try discriminate; try reflexivity.
  - apply orb_prop in Hc. destruct Hc as [Hc | Hc].
    + apply truthy_append_l, IH1, Hc.
    + specialize (IH2 Hc). destruct w1; simpl; [exact IH2 | reflexivity].
  - apply andb_prop in Hc. apply IH, Hc.
  - apply andb_prop in Hc. apply IH, Hc.
  - apply IH, Hc.
Qed.

Lemma matches_progress r pos rest c p s c' :
  matches icase input r pos rest c p s c' -> consumes r = true ->
  p <> pos /\ String.length s < String.length rest.
Proof.
  intros H Hc. apply matches_word in H. destruct H as (w & -> & -> & HL).
  pose proof (lang_consumes r w HL Hc) as Hw.
  rewrite length_append. destruct w; [discriminate|]. simpl. lia.
Qed.

Lemma star_loop_complete r k :
  consumes r = true ->
  (forall pos rest c p s c' k' x,
      matches icase input r pos rest c p s c' -> k' p s c' = Some x ->
      exists y, m icase input r pos rest c k' = Some y) ->
  forall pos rest c p s c',
    matches icase input (Star r) pos rest c p s c' ->
    forall x fuel, k p s c' = Some x -> String.length rest <= fuel ->
    exists y, star_loop (m icase input r) k fuel pos rest c = Some y.
Proof.
  intros Hc Hbody pos rest c p s c' H.
  remember (Star r) as sr eqn:Er. revert Er.
  induction H as [| | | | |r0 pos rest c
                 |r0 pos rest c p1 s1 c1 p2 s2 c2 H1 _ H2 IH2| | |];
    intros Er; try discriminate; injection Er as ->; intros x fuel Hk Hf.
  - destruct fuel as [|f]; simpl; [eauto|].
    destruct (m icase input r pos rest c _); eauto.
  - destruct (matches_progress _ _ _ _ _ _ _ H1 Hc) as [Hp Hl].
    destruct fuel as [|f]; [lia|]. simpl.
    destruct (IH2 eq_refl x f Hk) as (y & Hy); [lia|].
    destruct (Hbody pos rest c p1 s1 c1
                (fun p s c' => if Nat.eqb p pos then None
                               else star_loop (m icase input r) k f p s c') y H1)
      as (y' & Hy').
    + apply Nat.eqb_neq in Hp. rewrite Hp. exact Hy.
    + rewrite Hy'. eauto.
Qed.

Lemma m_complete r :
  stars_consume r = true ->
  forall pos rest c p s c' k x,
    matches icase input r pos rest c p s c' -> k p s c' = Some x ->
    exists y, m icase input r pos rest c k = Some y.
Proof.
  induction r as [|cs|r1 IH1 r2 IH2|r1 IH1 r2 IH2|r IH|n r IH| |];
    simpl; intros Hs pos rest c p s c' k x H Hk.
  - inversion H; subst. eauto.
  - inversion H as [|cs0 a pos0 t c0 Ha| | | | | | | |]; subst. rewrite Ha. eauto.
  - apply andb_prop in Hs. destruct Hs as [Hs1 Hs2].
    inversion H as [| |? ? ? ? ? p1 s1 c1 ? ? ? Ha Hb| | | | | | |]; subst.
    destruct (IH2 Hs2 _ _ _ _ _ _ k x Hb Hk) as (y & Hy).
    apply (IH1 Hs1 _ _ _ _ _ _ (fun p s c' => m icase input r2 p s c' k) y Ha Hy).
  - apply andb_prop in Hs. destruct Hs as [Hs1 Hs2].
    inversion H as [| | |? ? ? ? ? ? ? ? Ha|? ? ? ? ? ? ? ? Hb| | | | |]; subst.
    + destruct (IH1 Hs1 _ _ _ _ _ _ k x Ha Hk) as (y & ->). eauto.
    + destruct (m icase input r1 pos rest c k); [eauto|].
      apply (IH2 Hs2 _ _ _ _ _ _ k x Hb Hk).
  - apply andb_prop in Hs. destruct Hs as [Hc Hs].
    change (exists y, star_loop (m icase input r) k (S (String.length rest))
                        pos rest c = Some y).
    apply (star_loop_complete r k Hc (IH Hs) _ _ _ _ _ _ H x _ Hk). lia.
  - inversion H as [| | | | | | |? ? ? ? ? ? ? c1 Ha| |]; subst.
    apply (IH Hs _ _ _ _ _ _
             (fun p0 s0 c0 => k p0 s0 ((n, JS.take (p0 - pos) (JS.drop pos input)) :: c0))
             x Ha Hk).
  - inversion H; subst. simpl. eauto.
  - inversion H; subst. eauto.
Qed.

(** A word of a plain pattern can be consumed anywhere. *)
Lemma lang_matches r w :
  lang icase r w -> plain r = true ->
  forall pos s c,
    matches icase input r pos (w ++ s) c (pos + String.length w) s c.
Proof.
  induction 1 as [|cs a Ha|r1 r2 w1 w2 _ IH1 _ IH2|r1 r2 w _ IH|r1 r2 w _ IH
                 |r|r w1 w2 _ IH1 _ IH2|n r w _ IH| |]; simpl; intros Hp pos s c;
    try discriminate.
  - rewrite Nat.add_0_r. constructor.
  - replace (pos + 1) with (S pos) by lia. constructor. exact Ha.
  - apply andb_prop in Hp. destruct Hp as [Hp1 Hp2].
    rewrite append_assoc, length_append, Nat.add_assoc.
    econstructor; [apply IH1, Hp1 | apply IH2, Hp2].
  - apply andb_prop in Hp. apply M_AltL, IH, Hp.
  - apply andb_prop in Hp. apply M_AltR, IH, Hp.
  - rewrite Nat.add_0_r. constructor.
  - rewrite append_assoc, length_append, Nat.add_assoc.
    econstructor; [apply IH1, Hp | apply IH2, Hp].
Qed.
End MatcherComplete.

Section ConventionAccepted.
Import RegExp Shape.

Lemma lang_star_of_all cs w :
  all_chars (cs_mem true cs) w = true -> lang true (Star (Chr cs)) w.
Proof.
  induction w as [|c t IH]; simpl; intros H; [constructor|].
  apply andb_prop in H. destruct H as [Hc Ht].
  change (String c t) with (String c "" ++ t).
  constructor; [constructor; exact Hc | apply IH, Ht].
Qed.

Lemma lang_plus_of_all cs w :
  truthy w = true -> all_chars (cs_mem true cs) w = true ->
  lang true (Plus (Chr cs)) w.
Proof.
  destruct w as [|c t]; [discriminate|]. simpl. intros _ H.
  apply andb_prop in H. destruct H as [Hc Ht].
  change (String c t) with (String c "" ++ t).
  constructor; [constructor; exact Hc | apply lang_star_of_all, Ht].
Qed.

Lemma lang_of_digits W : digits W = true -> lang true (Plus (Chr CDigit)) W.
Proof.
  intros H. apply andb_prop in H. destruct H as [Hn Ha].
  apply lang_plus_of_all; assumption.
Qed.

Lemma lang_of_alnums E : alnums E = true -> lang true (Plus (Chr CLowerAlnum)) E.
Proof.
  intros H. apply andb_prop in H. destruct H as [Hn Ha].
  apply lang_plus_of_all; [assumption|].
  rewrite (all_chars_ext _ is_alnum); [exact Ha | apply mem_alnum].
Qed.

Lemma lang_of_token t : token_shape t -> lang true size_token t.
Proof.
  intros [W H HW HH | W H E HW HH HE]; unfold size_token.
  - constructor; [apply lang_of_digits, HW|].
    change ("-" ++ H) with (String "-" "" ++ H).
    constructor; [constructor; reflexivity|].
    rewrite <- (append_nil_r H).
    constructor; [apply lang_of_digits, HH | apply L_AltR; constructor].
  - constructor; [apply lang_of_digits, HW|].
    change ("-" ++ H ++ "-" ++ E) with (String "-" "" ++ H ++ String "-" "" ++ E).
    constructor; [constructor; reflexivity|].
    constructor; [apply lang_of_digits, HH|].
    apply L_AltL. constructor; [constructor; reflexivity | apply lang_of_alnums, HE].
Qed.

Lemma lang_of_size_list t ts :
  Forall token_shape (t :: ts) -> lang true size_list (join "_" (t :: ts)).
Proof.
  intros H. inversion H as [|? ? Ht Hts]; subst.
  assert (G : exists w, lang true (Star (Seq (Chr (CChar "_")) size_token)) w
                        /\ forall u, join "_" (u :: ts) = u ++ w).
  { clear t Ht H. induction Hts as [|v ts Hv Hts (w & Hw & Hj)].
    - exists "". split; [constructor|]. intros u. simpl. symmetry. apply append_nil_r.
    - exists ((String "_" "" ++ v) ++ w). split.
      + constructor; [|exact Hw].
        constructor; [constructor; reflexivity | apply lang_of_token, Hv].
      + intros u. change (join "_" (u :: v :: ts)) with (u ++ "_" ++ join "_" (v :: ts)).
        rewrite Hj. rewrite append_assoc. reflexivity. }
  destruct G as (w & Hw & Hj). rewrite Hj. unfold size_list.
  constructor; [apply lang_of_token, Ht | exact Hw].
Qed.

Lemma lang_of_extension e : extension_shape e -> lang true extension e.
Proof.
  intros (x & -> & Hn & Ha). unfold extension.
  change ("." ++ x) with (String "." "" ++ x).
  constructor; [constructor; reflexivity|].
  apply lang_plus_of_all; [exact Hn|].
  rewrite (all_chars_ext _ (fun c => negb (Ascii.eqb c "."))); [exact Ha|].
  apply mem_not_dot.
Qed.

(** One decomposition only. *)
Lemma last_dot_unique a1 x1 a2 x2 :
  a1 ++ "." ++ x1 = a2 ++ "." ++ x2 ->
  without "." x1 = true -> without "." x2 = true ->
  a1 = a2 /\ x1 = x2.
Proof.
  revert a2. induction a1 as [|c a1 IH]; intros [|d a2] E H1 H2.
  - injection E as E. auto.
  - exfalso. injection E as _ E. subst x1.
    rewrite without_append in H1. apply andb_prop in H1. destruct H1 as [_ H1].
    discriminate H1.
  - exfalso. injection E as _ E. subst x2.
    rewrite without_append in H2. apply andb_prop in H2. destruct H2 as [_ H2].
    discriminate H2.
  - injection E as -> E. destruct (IH _ E H1 H2) as [-> ->]. auto.
Qed.

Lemma append_same_length (a b x y : string) :
  a ++ x = b ++ y -> String.length a = String.length b -> a = b /\ x = y.
Proof.
  revert b. induction a as [|c a IH]; intros [|d b] E L; try discriminate L.
  - auto.
  - injection E as -> E. injection L as L. destruct (IH _ E L) as [-> ->]. auto.
Qed.

Lemma alnum_not_dot c : is_alnum c = true -> negb (Ascii.eqb c ".") = true.
Proof. ascii_cases c; intros H; try reflexivity; vm_compute in H; discriminate. Qed.

Lemma token_without_dot t : token_shape t -> without "." t = true.
Proof.
  assert (D : forall W, digits W = true -> without "." W = true).
  { intros W H. apply andb_prop in H. destruct H as [_ H]. unfold without.
    revert H. apply all_chars_impl. intros c Hc.
    apply alnum_not_dot, is_digit_alnum, Hc. }
  assert (A : forall E, alnums E = true -> without "." E = true).
  { intros E H. apply andb_prop in H. destruct H as [_ H]. unfold without.
    revert H. apply all_chars_impl. intros c Hc. apply alnum_not_dot, Hc. }
  intros [W H HW HH | W H E HW HH HE]; repeat rewrite without_append;
    rewrite ?(D W), ?(D H), ?(A E) by assumption; reflexivity.
Qed.

Lemma size_list_without_dot t ts :
  Forall token_shape (t :: ts) -> without "." (join "_" (t :: ts)) = true.
Proof.
  revert t. induction ts as [|u ts IH]; intros t H;
    inversion H as [|? ? Ht Hts]; subst.
  - apply token_without_dot, Ht.
  - change (join "_" (t :: u :: ts)) with (t ++ "_" ++ join "_" (u :: ts)).
    rewrite !without_append, (token_without_dot t Ht), (IH u Hts). reflexivity.
Qed.

Lemma parts_unique b1 t1 ts1 e1 b2 t2 ts2 e2 :
  b1 ++ "__" ++ join "_" (t1 :: ts1) ++ e1 = b2 ++ "__" ++ join "_" (t2 :: ts2) ++ e2 ->
  Forall token_shape (t1 :: ts1) -> Forall token_shape (t2 :: ts2) ->
  extension_shape e1 -> extension_shape e2 ->
  b1 = b2 /\ join "_" (t1 :: ts1) = join "_" (t2 :: ts2) /\ e1 = e2.
Proof.
  intros E H1 H2 (x1 & -> & _ & Hx1) (x2 & -> & _ & Hx2).
  set (s1 := join "_" (t1 :: ts1)) in *. set (s2 := join "_" (t2 :: ts2)) in *.
  assert (E' : (b1 ++ "__" ++ s1) ++ "." ++ x1 = (b2 ++ "__" ++ s2) ++ "." ++ x2).
  { rewrite !append_assoc. exact E. }
  apply last_dot_unique in E'; [|exact Hx1|exact Hx2].
  destruct E' as [Eb ->].
  assert (L : forall b t ts, Forall token_shape (t :: ts) ->
                lastIndexOf (b ++ "__" ++ join "_" (t :: ts)) "__"
                = Some (String.length b)).
  { intros b t ts Hts. destruct (size_list_clean t ts Hts) as [Hi Hst].
    apply lastIndexOf_separator. rewrite includes_after_underscore; [exact Hi|].
    rewrite <- (append_nil_r (join "_" (t :: ts))). apply Hst. }
  pose proof (L b1 t1 ts1 H1) as L1. pose proof (L b2 t2 ts2 H2) as L2.
  fold s1 in L1. fold s2 in L2. rewrite Eb, L2 in L1. injection L1 as L1.
  apply append_same_length in Eb; [|congruence].
  destruct Eb as [-> Es]. injection Es as Es. auto.
Qed.

Lemma search_first icase input r fuel pos rest p c :
  m icase input r pos rest [] (fun p _ c => Some (p, c)) = Some (p, c) ->
  RegExp.search icase input r fuel pos rest = Some (pos, p, c).
Proof. intros H. destruct fuel; cbn [RegExp.search]; rewrite H; reflexivity. Qed.

Lemma match_complete (base t : string) (ts : list string) (oe : string) :
  base_shape base = true ->
  Forall token_shape (t :: ts) ->
  extension_shape oe ->
  match_ (base ++ "__" ++ join "_" (t :: ts) ++ oe)
  = Some [Some (base ++ "__" ++ join "_" (t :: ts) ++ oe); Some base;
          Some (join "_" (t :: ts)); Some oe].
Proof.
  intros Hb Hts He.
  set (sizes := join "_" (t :: ts)).
  set (filename := base ++ "__" ++ sizes ++ oe).
  assert (D : forall inp, exists p c,
             matches true inp regex_ 0
               (base ++ String "_" (String "_" (sizes ++ oe ++ ""))) [] p "" c).
  { intros inp. eexists _, _. unfold regex_.
    econstructor; [constructor|].
    econstructor.
    { constructor.
      apply (lang_matches true inp (Star (Chr CDot)) base);
        [apply lang_star_of_all; exact Hb | reflexivity]. }
    econstructor; [constructor; reflexivity|].
    econstructor; [constructor; reflexivity|].
    econstructor.
    { constructor.
      apply (lang_matches true inp size_list sizes);
        [apply lang_of_size_list; exact Hts | reflexivity]. }
    econstructor.
    { constructor.
      apply (lang_matches true inp extension oe);
        [apply lang_of_extension; exact He | reflexivity]. }
    constructor. }
  assert (Hm : exists y,
             m true filename regex_ 0 filename [] (fun p _ c => Some (p, c)) = Some y).
  { destruct (D filename) as (p & c & Hd).
    assert (Ef : base ++ String "_" (String "_" (sizes ++ oe ++ "")) = filename)
      by (unfold filename; rewrite append_nil_r; reflexivity).
    rewrite Ef in Hd.
    apply (m_complete true filename regex_ eq_refl 0 filename [] p "" c _ (p, c) Hd).
    reflexivity. }
  destruct Hm as ([p c] & Hm).
  assert (Hs : exists l, match_ filename = Some l).
  { unfold match_, exec. rewrite (search_first _ _ _ _ _ _ _ _ Hm). eauto. }
  destruct Hs as (l & Hl). rewrite Hl.
  destruct (match_sound _ _ Hl) as (b' & s' & e' & -> & Ef' & _ & (t' & ts' & -> & Hts') & He').
  unfold filename, sizes in Ef'.
  destruct (parts_unique _ _ _ _ _ _ _ _ Ef' Hts Hts' He He') as (<- & <- & <-).
  reflexivity.
Qed.

(** The pattern matches every file name made of a base without line
    terminators, a list of size tokens joined by underscores and an
    extension, and its groups are those three parts. *)
Theorem convention_names_match (base t : string) (ts : list string) (oe : string) :
  base_shape base = true ->
  Forall token_shape (t :: ts) ->
  extension_shape oe ->
  match_ (base ++ "__" ++ join "_" (t :: ts) ++ oe)
  = Some [Some (base ++ "__" ++ join "_" (t :: ts) ++ oe); Some base;
          Some (join "_" (t :: ts)); Some oe].
Proof.
  intros Hb Hts He.
  destruct (match_ (base ++ "__" ++ join "_" (t :: ts) ++ oe)) as [l|] eqn:Hl.
  - destruct (match_sound _ _ Hl)
      as (b' & s' & e' & -> & Ef & _ & (t' & ts' & -> & Hts') & He').
    destruct (parts_unique _ _ _ _ _ _ _ _ Ef Hts Hts' He He') as (<- & <- & <-).
    reflexivity.
  - rewrite (match_complete base t ts oe Hb Hts He) in Hl. discriminate.
Qed.

(** When the pattern matches, the array holds the file name and three
    groups that are all there; the file name is the base, a double
    underscore, the size list and the extension; the base has no line
    terminator; the pieces of the size list between underscores are tokens
    [W-H] or [W-H-EXT]; the size list has neither a dot nor a double
    underscore; and the extension is a dot and one or more characters that
    are not dots. *)
Theorem matched_name_decomposes (filename : string) (matched : list (option string)) :
  match_ filename = Some matched ->
  exists base sizesPart originalExtention,
    matched = [Some filename; Some base; Some sizesPart; Some originalExtention]
    /\ filename = base ++ "__" ++ sizesPart ++ originalExtention
    /\ base_shape base = true
    /\ Forall token_shape (split "_" sizesPart)
    /\ without "." sizesPart = true
    /\ includes sizesPart "__" = false
    /\ extension_shape originalExtention.
Proof.
  intros H.
  destruct (match_sound _ _ H) as (b & s & e & -> & Hf & Hb & (t & ts & -> & Hts) & He).
  exists b, (join "_" (t :: ts)), e.
  split; [reflexivity|]. split; [exact Hf|]. split; [exact Hb|].
  split.
  { change "_" with (String "_"%char "") at 1.
    rewrite split_join; [exact Hts|].
    revert Hts. apply Forall_impl. intros x. apply token_without_underscore. }
  split; [apply size_list_without_dot; exact Hts|].
  split; [apply (size_list_clean t ts Hts) | exact He].
Qed.
End ConventionAccepted.

(* ================================================================= *)
(** ** When the render step answers with markup *)

Section RenderOutcome.
Import Shape.
Variable URL : string -> option string -> option URLObject.

(** The render step returns markup exactly when the reference parses and
    its file name matches the pattern, and [false] exactly when either
    fails: the [catch] branch is never the reason. *)
Theorem render_outcome (this : Instance) (tok : Token) :
  ((exists mk, render URL this tok = Normal (Html mk))
   <-> (exists p matched,
           parseUrl URL (href tok) = Some p
           /\ match_ (lastSegment (pathname p)) = Some matched))
  /\ (render URL this tok = Normal False_
      <-> (parseUrl URL (href tok) = None
           \/ exists p, parseUrl URL (href tok) = Some p
                        /\ match_ (lastSegment (pathname p)) = None)).
Proof.
  destruct (parseUrl URL (href tok)) as [p|] eqn:Hp.
  - destruct (match_ (lastSegment (pathname p))) as [matched|] eqn:Hm.
    + destruct (match_sound _ _ Hm) as (b & s & e & -> & _).
      destruct (render_matched URL this tok p _ b s e Hp Hm) as (largest & _ & Hr).
      split; split.
      * intros _. eauto.
      * intros _. eauto.
      * rewrite Hr. discriminate.
      * intros [H | (p' & H & H')]; [discriminate|].
        injection H as <-. congruence.
    + assert (Hr : render URL this tok = Normal False_).
      { unfold render. rewrite Hp, pop_lastSegment. cbn [defined bind].
        rewrite Hm. reflexivity. }
      split; split.
      * rewrite Hr. intros (mk & H). discriminate.
      * intros (p' & matched & H & H'). injection H as <-. congruence.
      * intros _. right. eauto.
      * intros _. exact Hr.
  - assert (Hr : render URL this tok = Normal False_).
    { unfold render. rewrite Hp. reflexivity. }
    split; split.
    + rewrite Hr. intros (mk & H). discriminate.
    + intros (p' & matched & H & _). discriminate.
    + intros _. left. reflexivity.
    + intros _. exact Hr.
Qed.

(** A token without an override keeps the extension of the file: the
    variant file name is [base__W-H] followed by the original extension,
    with [W] and [H] written as the decimal numerals of the parsed numbers.
    The sizes are taken within the safe integers: beyond them a width is
    rounded, and from 1e21 on written in exponent form. *)
Theorem plain_token_inherits_extension
  (filename : string) (whole : option string)
  (base sizesPart originalExtention W H : string) :
  match_ filename = Some [whole; Some base; Some sizesPart; Some originalExtention] ->
  safe_sizes sizesPart = true ->
  In (W ++ "-" ++ H) (split "_" sizesPart) ->
  digits W = true -> digits H = true ->
  exists w h,
    parseInt (Some W) = Num w /\ parseInt (Some H) = Num h
    /\ In (decode originalExtention (W ++ "-" ++ H))
         (processVariants sizesPart originalExtention)
    /\ ext (decode originalExtention (W ++ "-" ++ H)) = originalExtention
    /\ variantFilename base (decode originalExtention (W ++ "-" ++ H))
       = base ++ "__" ++ Number_toString (Num w) ++ "-" ++ Number_toString (Num h)
         ++ originalExtention
    /\ (decimal_of w W -> decimal_of h H ->
        variantFilename base (decode originalExtention (W ++ "-" ++ H))
        = base ++ "__" ++ W ++ "-" ++ H ++ originalExtention).
Proof.
  intros _ Hsafe Hin HW HH.
  destruct (safe_sizes_in _ originalExtention _ Hsafe Hin) as [Sw Sh].
  rewrite decode_WH in Sw, Sh by assumption. cbn [width height] in Sw, Sh.
  destruct (parseInt_safe W HW Sw) as (w & Hw & _ & Bw).
  destruct (parseInt_safe H HH Sh) as (h & Hh & _ & Bh).
  exists w, h. split; [exact Hw|]. split; [exact Hh|].
  assert (Hf : variantFilename base (decode originalExtention (W ++ "-" ++ H))
               = base ++ "__" ++ Number_toString (Num w) ++ "-"
                 ++ Number_toString (Num h) ++ originalExtention).
  { rewrite decode_WH by assumption. unfold variantFilename. cbn [token ext].
    rewrite Hw, Hh. repeat rewrite append_assoc. reflexivity. }
  split.
  { unfold processVariants.
    apply (Permutation_in _ (Permutation_sym (sort_permutation by_width _))).
    apply in_map. exact Hin. }
  split; [rewrite decode_WH by assumption; reflexivity|].
  split; [exact Hf|].
  intros Dw Dh. rewrite Hf.
  rewrite (Number_toString_numeral _ _ Dw), (Number_toString_numeral _ _ Dh) by lia.
  reflexivity.
Qed.

Lemma decimal_parseInt z s :
  decimal_of z s -> (z <= MAX_SAFE_INTEGER)%Z -> parseInt (Some s) = Num z.
Proof.
  intros (Hd & _ & Hv) Hmax.
  destruct (parseInt_digits s Hd) as (z' & Hp & Hv' & Hpos).
  rewrite Hv in Hv'. injection Hv' as <-.
  rewrite Hp. apply to_number_safe. lia.
Qed.

Lemma sort_single {A} (cmp : A -> A -> number) (x : A) : sort cmp [x] = [x].
Proof. reflexivity. Qed.

Lemma decode_numerals oe w h sw sh :
  decimal_of w sw -> decimal_of h sh ->
  (w <= MAX_SAFE_INTEGER)%Z -> (h <= MAX_SAFE_INTEGER)%Z ->
  decode oe (sw ++ "-" ++ sh)
  = {| width := Num w; height := Num h; ext := oe; token := sw ++ "-" ++ sh |}.
Proof.
  intros Dw Dh Bw Bh. pose proof Dw as (Hw & _). pose proof Dh as (Hh & _).
  rewrite decode_WH by assumption.
  rewrite (decimal_parseInt _ _ Dw Bw), (decimal_parseInt _ _ Dh Bh).
  rewrite (Number_toString_numeral _ _ Dw Bw), (Number_toString_numeral _ _ Dh Bh).
  reflexivity.
Qed.

(** A file name with one size token written without leading zeros and
    without an override, of sizes within the safe integers, is its own and
    only variant. *)
Theorem single_size_is_its_own_variant
  (filename : string) (whole : option string)
  (base originalExtention W H : string) (w h : Z) :
  match_ filename
    = Some [whole; Some base; Some (W ++ "-" ++ H); Some originalExtention] ->
  decimal_of w W -> decimal_of h H ->
  (w <= MAX_SAFE_INTEGER)%Z -> (h <= MAX_SAFE_INTEGER)%Z ->
  processVariants (W ++ "-" ++ H) originalExtention
  = [{| width := Num w; height := Num h; ext := originalExtention;
        token := W ++ "-" ++ H |}]
  /\ Forall (fun v => variantFilename base v = filename)
       (processVariants (W ++ "-" ++ H) originalExtention).
Proof.
  intros Hm Dw Dh Bw Bh.
  pose proof Dw as (Hw & _). pose proof Dh as (Hh & _).
  assert (E : processVariants (W ++ "-" ++ H) originalExtention
              = [{| width := Num w; height := Num h; ext := originalExtention;
                    token := W ++ "-" ++ H |}]).
  { unfold processVariants. rewrite split_without.
    - cbn [map]. rewrite sort_single, (decode_numerals _ _ _ _ _ Dw Dh Bw Bh).
      reflexivity.
    - apply token_without_underscore. constructor; assumption. }
  split; [exact E|]. rewrite E. constructor; [|constructor].
  apply matched_tokens in Hm. destruct Hm as (-> & _).
  unfold variantFilename. cbn [token ext]. repeat rewrite append_assoc. reflexivity.
Qed.

(** Every variant file name of a name whose sizes are within the safe
    integers is itself a name of the convention: the pattern matches it with
    the same base, the token of the variant as its size list and the
    extension of the variant, and decoding it gives the variant back. *)
Theorem variant_filename_round_trip
  (filename : string) (whole : option string)
  (base sizesPart originalExtention : string) (v : Variant) :
  match_ filename = Some [whole; Some base; Some sizesPart; Some originalExtention] ->
  safe_sizes sizesPart = true ->
  In v (processVariants sizesPart originalExtention) ->
  match_ (variantFilename base v)
  = Some [Some (variantFilename base v); Some base; Some (token v); Some (ext v)]
  /\ processVariants (token v) (ext v) = [v].
Proof.
  intros Hm Hsafe Hin.
  destruct (match_sound _ _ Hm) as (b & s & e & Hl & _ & Hb & _ & He).
  injection Hl as _ <- <- <-.
  apply matched_tokens in Hm. destruct Hm as (_ & Ht & _).
  unfold processVariants in Hin.
  apply (Permutation_in _ (sort_permutation by_width _)) in Hin.
  apply in_map_iff in Hin. destruct Hin as (t & <- & Hin).
  rewrite Forall_forall in Ht. specialize (Ht t Hin).
  destruct (safe_sizes_in _ originalExtention _ Hsafe Hin) as [Sw Sh].
  destruct (decode_safe originalExtention t Ht Sw Sh)
    as (w & h & Ew & Eh & Bw & Bh & Et).
  assert (He' : extension_shape (ext (decode originalExtention t))).
  { destruct Ht as [W H HW HH | W H E HW HH HE].
    - rewrite decode_WH by assumption. exact He.
    - rewrite decode_WHE by assumption. cbn [ext].
      apply andb_prop in HE. destruct HE as [En Ea].
      exists E. split; [reflexivity|]. split; [exact En|].
      revert Ea. apply all_chars_impl. apply alnum_not_dot. }
  pose proof (Number_toString_decimal w Bw) as Dw.
  pose proof (Number_toString_decimal h Bh) as Dh.
  destruct (decode originalExtention t) as [dw dh e' tk].
  cbn [width height ext token] in Ew, Eh, Et, He' |- *. subst dw dh tk.
  unfold variantFilename. cbn [token ext].
  pose proof Dw as (Hw & _). pose proof Dh as (Hh & _).
  assert (Hts : Forall token_shape
                  [Number_toString (Num w) ++ "-" ++ Number_toString (Num h)]).
  { constructor; [constructor; assumption | constructor]. }
  split.
  - apply (match_complete base _ [] e' Hb Hts He').
  - unfold processVariants. rewrite split_without.
    + cbn [map]. rewrite sort_single, (decode_numerals _ _ _ _ _ Dw Dh); [reflexivity | lia | lia].
    + apply token_without_underscore. constructor; assumption.
Qed.
End RenderOutcome.

(* ================================================================= *)
(** ** More on the order of the variants *)

Section VariantOrder.
Import Shape.

Lemma width_is_not_both w x y :
  positive (by_width x y) = true -> width_is w x = true -> width_is w y = true ->
  False.
Proof.
  unfold by_width, width_is. destruct (width x) as [|a|], (width y) as [|b|];
    try discriminate.
  cbn [sub]. rewrite positive_to_number.
  intros Hp Ha Hb. apply Z.ltb_lt in Hp. apply Z.eqb_eq in Ha, Hb. lia.
Qed.

Lemma insert_filter w x l :
  filter (width_is w) (insert by_width x l) = filter (width_is w) (x :: l).
Proof.
  induction l as [|y r IH]; [reflexivity|].
  cbn [insert]. destruct (positive (by_width x y)) eqn:Hp; [|reflexivity].
  cbn [filter] in *. rewrite IH.
  destruct (width_is w x) eqn:Hx, (width_is w y) eqn:Hy; try reflexivity.
  exfalso. exact (width_is_not_both w x y Hp Hx Hy).
Qed.

Lemma sort_filter w l :
  filter (width_is w) (sort by_width l) = filter (width_is w) l.
Proof.
  induction l as [|x r IH]; [reflexivity|].
  cbn [sort]. rewrite insert_filter. cbn [filter]. rewrite IH. reflexivity.
Qed.

Lemma length_insert {A} (cmp : A -> A -> number) x l :
  List.length (insert cmp x l) = S (List.length l).
Proof.
  induction l as [|y r IH]; [reflexivity|]. cbn [insert].
  destruct (positive (cmp x y)); simpl; [rewrite IH|]; reflexivity.
Qed.

Lemma length_sort {A} (cmp : A -> A -> number) l :
  List.length (sort cmp l) = List.length l.
Proof.
  induction l as [|x r IH]; [reflexivity|]. cbn [sort].
  rewrite length_insert, IH. reflexivity.
Qed.

(** The sort is stable.  For a matched file name no width is [NaN], so
    that the comparator is consistent and the order is that of every
    engine: the variants of one width come out in the order of their tokens
    in the file name, and there is one variant per token. *)
Theorem variants_of_equal_width_keep_their_order
  (filename : string) (whole : option string)
  (base sizesPart originalExtention : string) (w : Z) :
  match_ filename = Some [whole; Some base; Some sizesPart; Some originalExtention] ->
  Forall has_width (processVariants sizesPart originalExtention)
  /\ filter (width_is w) (processVariants sizesPart originalExtention)
     = filter (width_is w) (map (decode originalExtention) (split "_" sizesPart))
  /\ List.length (processVariants sizesPart originalExtention)
     = List.length (split "_" sizesPart)
  /\ 1 <= List.length (processVariants sizesPart originalExtention).
Proof.
  intros Hm. split.
  { pose proof (matched_variants _ _ _ _ _ Hm) as Hv.
    revert Hv. apply Forall_impl. intros v [H _]. exact H. }
  unfold processVariants. split; [apply sort_filter|].
  rewrite length_sort, length_map. split; [reflexivity|].
  pose proof (split_not_nil "_" sizesPart).
  destruct (split "_" sizesPart); [contradiction | simpl; lia].
Qed.

(** When the widths of the decoded tokens are in ascending order, the
    variants are the decoded tokens in the order of the file name. *)
Theorem ascending_names_keep_their_order
  (sizesPart originalExtention : string) :
  StronglySorted width_le (map (decode originalExtention) (split "_" sizesPart)) ->
  processVariants sizesPart originalExtention
  = map (decode originalExtention) (split "_" sizesPart).
Proof.
  unfold processVariants.
  generalize (map (decode originalExtention) (split "_" sizesPart)).
  induction 1 as [|x r Hs IH Hx]; [reflexivity|].
  cbn [sort]. rewrite IH. destruct r as [|y r']; [reflexivity|].
  cbn [insert]. inversion Hx as [|? ? Hxy _]; subst.
  assert (E : positive (by_width x y) = false).
  { unfold width_le, num_le in Hxy. unfold by_width.
    destruct (width x) as [|a|[]], (width y) as [|b|[]];
      try contradiction; try reflexivity.
    cbn [sub]. rewrite positive_to_number. apply Z.ltb_ge. lia. }
  rewrite E. reflexivity.
Qed.
End VariantOrder.

(* ================================================================= *)
(** ** The last segment and the variant pathnames *)

Section Pathnames.
Import Shape.

Lemma pop_cons {A} (x y : A) (l : list A) : pop (x :: y :: l) = pop (y :: l).
Proof.
  unfold pop. cbn [rev].
  destruct (rev l ++ [y])%list as [|z r] eqn:E.
  - destruct (rev l); discriminate.
  - reflexivity.
Qed.

Lemma split_single sep s h :
  split sep s = [h] -> s = h /\ without sep h = true.
Proof.
  revert h. induction s as [|c t IH]; intros h H.
  - injection H as <-. auto.
  - cbn [split] in H. destruct (Ascii.eqb c sep) eqn:E.
    + pose proof (split_not_nil sep t). destruct (split sep t); [contradiction|discriminate].
    + destruct (split sep t) as [|h' r] eqn:Es; [injection H as <-|].
      * exfalso. exact (split_not_nil sep t Es).
      * destruct r; [|discriminate]. injection H as <-.
        destruct (IH h' eq_refl) as [-> Hw].
        split; [reflexivity|]. unfold without in *. cbn [all_chars].
        rewrite E, Hw. reflexivity.
Qed.

Lemma lastSegment_suffix (pathname : string) :
  exists dir,
    pathname = dir ++ lastSegment pathname
    /\ without "/" (lastSegment pathname) = true
    /\ (dir = "" \/ exists d, dir = d ++ "/").
Proof.
  unfold lastSegment.
  induction pathname as [|c t (dir & Hd & Hw & He)].
  - exists "". repeat split. left. reflexivity.
  - cbn [split]. destruct (Ascii.eqb c "/") eqn:E.
    + apply Ascii.eqb_eq in E. subst c.
      destruct (split "/" t) as [|h r] eqn:Es; [exfalso; exact (split_not_nil _ _ Es)|].
      rewrite pop_cons. exists (String "/" dir).
      split; [simpl; rewrite <- Hd; reflexivity|]. split; [exact Hw|].
      right. destruct He as [-> | (d & ->)].
      * exists "". reflexivity.
      * exists (String "/" d). reflexivity.
    + destruct (split "/" t) as [|h r] eqn:Es; [exfalso; exact (split_not_nil _ _ Es)|].
      destruct r as [|h2 r].
      * destruct (split_single _ _ _ Es) as [-> Hh].
        exists "". split; [reflexivity|]. split; [|left; reflexivity].
        cbn [pop rev app str]. unfold without. cbn [all_chars].
        rewrite E. exact Hh.
      * rewrite pop_cons. rewrite pop_cons in Hd, Hw.
        exists (String c dir). split; [simpl; rewrite <- Hd; reflexivity|].
        split; [exact Hw|]. right.
        destruct He as [-> | (d & ->)].
        -- exfalso. simpl in Hd.
           assert (Hs : split "/" t = [t]) by (apply split_without; rewrite Hd at 1; exact Hw).
           rewrite Es in Hs. discriminate.
        -- exists (String c d). reflexivity.
Qed.

Lemma indexOf_before (a p b : string) :
  exists i, indexOf (a ++ p ++ b) p = Some i /\ i <= String.length a.
Proof.
  induction a as [|c a (i & IH & Hi)].
  - exists 0. simpl append. rewrite indexOf_unfold, prefix_append. auto.
  - rewrite indexOf_unfold. simpl append.
    destruct (String.prefix p (String c (a ++ p ++ b))).
    + exists 0. split; [reflexivity | lia].
    + rewrite IH. exists (S i). split; [reflexivity | simpl; lia].
Qed.

(** The last segment is a suffix of the pathname and holds no slash; what
    comes before it is empty or ends with a slash.  So the replacement in
    [#generateSrcset] always finds the file name, at the last segment or
    before it. *)
Theorem last_segment_is_a_suffix (pathname : string) :
  exists dir,
    pathname = dir ++ lastSegment pathname
    /\ without "/" (lastSegment pathname) = true
    /\ (dir = "" \/ exists d, dir = d ++ "/")
    /\ exists i, indexOf pathname (lastSegment pathname) = Some i
                 /\ i <= String.length dir.
Proof.
  destruct (lastSegment_suffix pathname) as (dir & Hd & Hw & He).
  exists dir. split; [exact Hd|]. split; [exact Hw|]. split; [exact He|].
  destruct (indexOf_before dir (lastSegment pathname) "") as (i & Hi & Hl).
  rewrite append_nil_r, <- Hd in Hi. eauto.
Qed.

Lemma indexOf_zero s p : indexOf s p = Some 0 -> String.prefix p s = true.
Proof.
  rewrite indexOf_unfold. destruct (String.prefix p s); [reflexivity|].
  destruct s; [discriminate|]. destruct (indexOf s p); discriminate.
Qed.

Lemma prefix_head (c d : ascii) (p s : string) :
  String.prefix (String c p) (String d s) = true -> c = d.
Proof. simpl. destruct (ascii_dec c d); [auto | discriminate]. Qed.

Lemma includes_truthy s p : includes s p = true -> truthy p = true -> truthy s = true.
Proof.
  destruct s; [|reflexivity]. unfold includes. simpl.
  destruct p; [discriminate|]. discriminate.
Qed.

(** A reference that begins with a slash keeps it: when the pathname
    begins with a slash, so does every variant URL of a matched relative
    reference. *)
Theorem root_relative_stays_root_relative
  (URL : string -> option string -> option URLObject)
  (tok : Token) (p : ParsedUrl)
  (whole : option string) (base sizesPart originalExtention : string)
  (v : Variant) :
  parseUrl URL (href tok) = Some p ->
  isAbsolute p = false ->
  startsWith (href tok) "/" = true ->
  startsWith (pathname p) "/" = true ->
  match_ (lastSegment (pathname p))
    = Some [whole; Some base; Some sizesPart; Some originalExtention] ->
  finalUrl base (pathname p) (isAbsolute p) (origin p) (search p) (hash p)
    (href tok) v
  = variantPathname base (pathname p) v ++ search p ++ hash p
  /\ startsWith
       (finalUrl base (pathname p) (isAbsolute p) (origin p) (search p) (hash p)
          (href tok) v) "/" = true.
Proof.
  intros _ Habs Hh Hp Hm.
  assert (E : finalUrl base (pathname p) (isAbsolute p) (origin p) (search p) (hash p)
                (href tok) v
              = variantPathname base (pathname p) v ++ search p ++ hash p).
  { unfold finalUrl, cleanPath. rewrite Habs, Hh. cbn [negb].
    rewrite andb_false_r. reflexivity. }
  split; [exact E|]. rewrite E.
  destruct (lastSegment_suffix (pathname p)) as (dir & _ & Hw & _).
  pose proof (match_includes_separator _ _ Hm) as Hi.
  pose proof (includes_truthy _ _ Hi eq_refl) as Hn.
  unfold variantPathname, replace.
  destruct (pathname p) as [|c t] eqn:Ep; [discriminate|].
  rewrite startsWith_cons in Hp. apply Ascii.eqb_eq in Hp. subst c.
  destruct (indexOf (String "/" t) (lastSegment (String "/" t))) as [[|i]|] eqn:Ei.
  - exfalso. apply indexOf_zero in Ei.
    destruct (lastSegment (String "/" t)) as [|d f]; [discriminate|].
    apply prefix_head in Ei. subst d.
    unfold without in Hw. cbn [all_chars] in Hw. discriminate Hw.
  - cbn [take append]. apply startsWith_cons.
  - apply startsWith_cons.
Qed.

(** When the file name occurs in the pathname only as its last segment,
    and neither the base nor the extension holds a dollar sign, a variant
    URL of a relative reference written without a leading slash is the
    directory, without the slash the parser put in front, followed by the
    variant file name, the query and the fragment. *)
Theorem relative_variant_urls_keep_the_rest
  (URL : string -> option string -> option URLObject)
  (tok : Token) (p : ParsedUrl) (dir : string)
  (whole : option string) (base sizesPart originalExtention : string)
  (v : Variant) :
  parseUrl URL (href tok) = Some p ->
  isAbsolute p = false ->
  startsWith (href tok) "/" = false ->
  match_ (lastSegment (pathname p))
    = Some [whole; Some base; Some sizesPart; Some originalExtention] ->
  pathname p = "/" ++ dir ++ lastSegment (pathname p) ->
  indexOf (pathname p) (lastSegment (pathname p)) = Some (S (String.length dir)) ->
  without "$" base = true ->
  without "$" originalExtention = true ->
  In v (processVariants sizesPart originalExtention) ->
  finalUrl base (pathname p) (isAbsolute p) (origin p) (search p) (hash p)
    (href tok) v
  = dir ++ variantFilename base v ++ search p ++ hash p.
Proof.
  intros _ Habs Hh Hm Hd Hi Hb Ho Hin.
  apply matched_tokens in Hm. destruct Hm as (_ & Ht & _).
  unfold processVariants in Hin.
  apply (Permutation_in _ (sort_permutation by_width _)) in Hin.
  apply in_map_iff in Hin. destruct Hin as (t & <- & Hin).
  rewrite Forall_forall in Ht. specialize (Ht t Hin).
  unfold finalUrl, variantPathname, cleanPath. rewrite Habs, Hh. cbn [negb].
  set (f := lastSegment (pathname p)) in *.
  assert (Hd' : pathname p = (String "/" dir) ++ f) by exact Hd.
  rewrite Hd' in Hi |- *.
  rewrite replace_last; [| exact Hi | apply variantFilename_plain; assumption].
  cbn [append]. rewrite startsWith_cons.
  change (Ascii.eqb "/" "/") with true. cbn [andb slice1].
  rewrite append_assoc. reflexivity.
Qed.
End Pathnames.

(* ================================================================= *)
(** ** The console *)

Section ConsoleFacts.
Import Console.
Variable URL : string -> option string -> option URLObject.

Lemma render_body_debug s d l d' tok p matched :
  render_body (mkInstance s d l) tok p matched
  = render_body (mkInstance s d' l) tok p matched.
Proof. reflexivity. Qed.

(** Diagnostics are advisory: the console version of the render step
    returns what [#render] returns, the [debug] flag does not change that
    result, and nothing is written when [debug] is off. *)
Theorem console_is_advisory (this : Instance) (tok : Token) :
  fst (render_console URL this tok) = render URL this tok
  /\ (forall d,
         fst (render_console URL
                (mkInstance (defaultSizes this) d (lazy this)) tok)
         = fst (render_console URL this tok))
  /\ (debug this = false -> snd (render_console URL this tok) = []).
Proof.
  split; [|split].
  - unfold render_console, render.
    destruct (parseUrl URL (href tok)) as [p|]; [|reflexivity].
    rewrite pop_lastSegment. cbn [defined bind].
    destruct (match_ (lastSegment (pathname p))) as [matched|]; [|reflexivity].
    destruct (render_body this tok p matched); reflexivity.
  - intros d. destruct this as [s d0 l]. cbn [defaultSizes lazy].
    unfold render_console.
    destruct (parseUrl URL (href tok)) as [p|]; [|reflexivity].
    rewrite pop_lastSegment.
    destruct (match_ (lastSegment (pathname p))) as [matched|]; [|reflexivity].
    rewrite (render_body_debug s d l d0).
    destruct (render_body (mkInstance s d0 l) tok p matched); reflexivity.
  - intros Hd. unfold render_console, warn, error. rewrite Hd.
    destruct (parseUrl URL (href tok)) as [p|]; [|reflexivity].
    rewrite pop_lastSegment.
    destruct (match_ (lastSegment (pathname p))) as [matched|].
    + destruct (render_body this tok p matched); reflexivity.
    + destruct (includes (lastSegment (pathname p)) "__"); reflexivity.
Qed.

(** With [debug] on, the render step warns once about a reference that
    does not parse, once about a file name that holds a double underscore
    and does not match, and writes nothing for a file name without a double
    underscore or for one that matches.  [console.error] is never called. *)
Theorem console_messages (this : Instance) (tok : Token) :
  debug this = true ->
  (parseUrl URL (href tok) = None ->
   snd (render_console URL this tok)
   = [Warn ("[Marked Responsive Images] Could not parse URL: " ++ href tok)])
  /\ (forall p,
         parseUrl URL (href tok) = Some p ->
         match_ (lastSegment (pathname p)) = None ->
         includes (lastSegment (pathname p)) "__" = true ->
         snd (render_console URL this tok)
         = [Warn ("[Marked Responsive Images] "
                  ++ "Filename contains '__' but does not match expected pattern: "
                  ++ lastSegment (pathname p))])
  /\ (forall p,
         parseUrl URL (href tok) = Some p ->
         includes (lastSegment (pathname p)) "__" = false ->
         snd (render_console URL this tok) = [])
  /\ (forall p matched,
         parseUrl URL (href tok) = Some p ->
         match_ (lastSegment (pathname p)) = Some matched ->
         snd (render_console URL this tok) = [])
  /\ Forall (fun c => exists message, c = Warn message)
       (snd (render_console URL this tok)).
Proof.
  intros Hd.
  assert (Hok : forall p matched,
             parseUrl URL (href tok) = Some p ->
             match_ (lastSegment (pathname p)) = Some matched ->
             snd (render_console URL this tok) = []).
  { intros p matched Hp Hm. unfold render_console.
    rewrite Hp, pop_lastSegment, Hm.
    destruct (match_sound _ _ Hm) as (b & s & e & -> & _).
    destruct (render_body_normal this tok p (Some (lastSegment (pathname p))) b s e)
      as (largest & _ & ->). reflexivity. }
  split; [|split; [|split; [|split]]].
  - intros Hp. unfold render_console, warn. rewrite Hp, Hd. reflexivity.
  - intros p Hp Hm Hi. unfold render_console, warn.
    rewrite Hp, pop_lastSegment, Hm, Hi, Hd. reflexivity.
  - intros p Hp Hi. unfold render_console.
    rewrite Hp, pop_lastSegment.
    destruct (match_ (lastSegment (pathname p))) as [matched|] eqn:Hm.
    + apply match_includes_separator in Hm. congruence.
    + rewrite Hi. reflexivity.
  - exact Hok.
  - destruct (parseUrl URL (href tok)) as [p|] eqn:Hp.
    + destruct (match_ (lastSegment (pathname p))) as [matched|] eqn:Hm.
      * rewrite (Hok p matched eq_refl Hm). constructor.
      * unfold render_console, warn. rewrite Hp, pop_lastSegment, Hm, Hd.
        destruct (includes (lastSegment (pathname p)) "__"); repeat constructor; eauto.
    + unfold render_console, warn. rewrite Hp, Hd. repeat constructor; eauto.
Qed.
End ConsoleFacts.

(* ================================================================= *)
(** ** The largest variant and the options *)

Section LargestAndOptions.
Import Shape.




(** Of the options only [sizes] reaches the markup, and an empty [sizes]
    counts as none: two option objects with the same usable [sizes] render
    every token alike, whatever their [lazy] and [debug]. *)
Theorem options_only_count_through_sizes
  (URL : string -> option string -> option URLObject)
  (o1 o2 : Options) (tok : Token) :
  or_null (opt_sizes o1) = or_null (opt_sizes o2) ->
  responsiveImages URL o1 tok = responsiveImages URL o2 tok.
Proof.
  intros H. unfold responsiveImages, constructor. rewrite H.
  assert (L : forall o, or_bool (opt_lazy o) true = true)
    by (intros [s d [[|]|]]; reflexivity).
  rewrite !L. reflexivity.
Qed.
End LargestAndOptions.

(* ================================================================= *)
(** ** Instances *)

Lemma matched_name_decomposes_witness :
  exists base sizesPart originalExtention,
    "a__1-2_3-4-webp.jpg" = base ++ "__" ++ sizesPart ++ originalExtention
    /\ extension_shape originalExtention.
Proof.
  destruct (matched_name_decomposes "a__1-2_3-4-webp.jpg"
              [Some "a__1-2_3-4-webp.jpg"; Some "a"; Some "1-2_3-4-webp"; Some ".jpg"])
    as (b & s & e & _ & Hf & _ & _ & _ & _ & He).
  - vm_compute; reflexivity.
  - exists b, s, e. split; [exact Hf | exact He].
Defined.

Lemma convention_names_match_witness :
  match_ "my.pic__10-20_30-40-PNG.jpeg"
  = Some [Some "my.pic__10-20_30-40-PNG.jpeg"; Some "my.pic";
          Some "10-20_30-40-PNG"; Some ".jpeg"].
Proof.
  apply (convention_names_match "my.pic" "10-20" ["30-40-PNG"] ".jpeg").
  - reflexivity.
  - constructor.
    + apply (Shape_WH "10" "20"); reflexivity.
    + constructor; [|constructor].
      apply (Shape_WHE "30" "40" "PNG"); reflexivity.
  - exists "jpeg". repeat split.
Defined.

Lemma variant_filename_round_trip_witness :
  match_ "a__4-3.webp"
  = Some [Some "a__4-3.webp"; Some "a"; Some "4-3"; Some ".webp"]
  /\ processVariants "4-3" ".webp" = [decode ".jpg" "004-03-webp"].
Proof.
  apply (variant_filename_round_trip "a__004-03-webp_9-9.jpg"
           (Some "a__004-03-webp_9-9.jpg") "a" "004-03-webp_9-9" ".jpg"
           (decode ".jpg" "004-03-webp")).
  - vm_compute; reflexivity.
  - vm_compute; reflexivity.
  - vm_compute. left; reflexivity.
Defined.

Lemma single_size_is_its_own_variant_witness :
  Forall (fun v => variantFilename "pic" v = "pic__100-100.jpg")
    (processVariants "100-100" ".jpg").
Proof.
  apply (single_size_is_its_own_variant "pic__100-100.jpg"
           (Some "pic__100-100.jpg") "pic" ".jpg" "100" "100" 100 100).
  - vm_compute; reflexivity.
  - vm_compute; auto.
  - vm_compute; auto.
  - vm_compute; discriminate.
  - vm_compute; discriminate.
Defined.

Lemma plain_token_inherits_extension_witness :
  exists w h,
    parseInt (Some "400") = Num w /\ parseInt (Some "300") = Num h
    /\ In (decode ".jpg" "400-300") (processVariants "400-300_800-600-webp" ".jpg")
    /\ ext (decode ".jpg" "400-300") = ".jpg"
    /\ variantFilename "photo" (decode ".jpg" "400-300")
       = "photo" ++ "__" ++ Number_toString (Num w) ++ "-" ++ Number_toString (Num h)
         ++ ".jpg"
    /\ (decimal_of w "400" -> decimal_of h "300" ->
        variantFilename "photo" (decode ".jpg" "400-300")
        = "photo" ++ "__" ++ "400" ++ "-" ++ "300" ++ ".jpg").
Proof.
  apply (plain_token_inherits_extension "photo__400-300_800-600-webp.jpg"
           (Some "photo__400-300_800-600-webp.jpg") "photo" "400-300_800-600-webp"
           ".jpg" "400" "300").
  - vm_compute; reflexivity.
  - vm_compute; reflexivity.
  - vm_compute. left; reflexivity.
  - reflexivity.
  - reflexivity.
Defined.

Lemma variants_of_equal_width_keep_their_order_witness :
  match_ "a__100-50_200-100_100-60-webp.jpg"
  = Some [Some "a__100-50_200-100_100-60-webp.jpg"; Some "a";
          Some "100-50_200-100_100-60-webp"; Some ".jpg"]
  /\ filter (Shape.width_is 100)
       (processVariants "100-50_200-100_100-60-webp" ".jpg")
     = [decode ".jpg" "100-50"; decode ".jpg" "100-60-webp"].
Proof.
  split; [vm_compute; reflexivity|].
  destruct (variants_of_equal_width_keep_their_order
              "a__100-50_200-100_100-60-webp.jpg"
              (Some "a__100-50_200-100_100-60-webp.jpg") "a"
              "100-50_200-100_100-60-webp" ".jpg" 100) as (_ & E & _).
  - vm_compute; reflexivity.
  - rewrite E. vm_compute; reflexivity.
Defined.

Lemma render_outcome_witness :
  exists mk, render WhatWG.URL_new (constructor no_options) (image photo)
             = Normal (Html mk).
Proof.
  apply (proj2 (proj1 (render_outcome WhatWG.URL_new (constructor no_options)
                         (image photo)))).
  exists photo_parsed. eexists. split; vm_compute; reflexivity.
Defined.

Lemma ascending_names_keep_their_order_witness :
  processVariants "1-2_1-9_3-4" ".jpg"
  = map (decode ".jpg") (split "_" "1-2_1-9_3-4").
Proof.
  apply (ascending_names_keep_their_order "1-2_1-9_3-4" ".jpg").
  vm_compute. repeat constructor; vm_compute; discriminate.
Defined.


Lemma root_relative_stays_root_relative_witness :
  startsWith
    (finalUrl "a" "/img/a__1-2_3-4.jpg" false "" "?v=1" "" "/img/a__1-2_3-4.jpg?v=1"
       (decode ".jpg" "1-2")) "/" = true.
Proof.
  apply (root_relative_stays_root_relative WhatWG.URL_new
           (image "/img/a__1-2_3-4.jpg?v=1")
           {| origin := ""; pathname := "/img/a__1-2_3-4.jpg"; search := "?v=1";
              hash := ""; isAbsolute := false |}
           (Some "a__1-2_3-4.jpg") "a" "1-2_3-4" ".jpg" (decode ".jpg" "1-2"));
    vm_compute; reflexivity.
Defined.

Lemma relative_variant_urls_keep_the_rest_witness :
  finalUrl "photo" "/img/photo__400-300_800-600.jpg" false "" "" "" photo
    (decode ".jpg" "400-300")
  = "img/photo__400-300.jpg".
Proof.
  apply (relative_variant_urls_keep_the_rest WhatWG.URL_new (image photo)
           photo_parsed "img/" (Some "photo__400-300_800-600.jpg") "photo"
           "400-300_800-600" ".jpg" (decode ".jpg" "400-300")).
  - vm_compute; reflexivity.
  - reflexivity.
  - reflexivity.
  - vm_compute; reflexivity.
  - vm_compute; reflexivity.
  - vm_compute; reflexivity.
  - reflexivity.
  - reflexivity.
  - vm_compute. left; reflexivity.
Defined.

Lemma console_is_advisory_witness :
  snd (Console.render_console WhatWG.URL_new (constructor no_options)
         (image "img/photo__400x300.jpg")) = [].
Proof.
  apply (proj2 (proj2 (console_is_advisory WhatWG.URL_new (constructor no_options)
                         (image "img/photo__400x300.jpg")))).
  reflexivity.
Defined.

Lemma console_messages_witness :
  snd (Console.render_console WhatWG.URL_new
         (constructor (mkOptions None (Some true) None))
         (image "img/photo__400x300.jpg"))
  = [Console.Warn
       ("[Marked Responsive Images] "
        ++ "Filename contains '__' but does not match expected pattern: "
        ++ "photo__400x300.jpg")].
Proof.
  apply (proj1 (proj2 (console_messages WhatWG.URL_new
                         (constructor (mkOptions None (Some true) None))
                         (image "img/photo__400x300.jpg") eq_refl))
           {| origin := ""; pathname := "/img/photo__400x300.jpg"; search := "";
              hash := ""; isAbsolute := false |});
    vm_compute; reflexivity.
Defined.

Lemma options_only_count_through_sizes_witness :
  responsiveImages WhatWG.URL_new (mkOptions (Some "") (Some true) (Some false))
    (image photo)
  = responsiveImages WhatWG.URL_new no_options (image photo).
Proof.
  apply (options_only_count_through_sizes WhatWG.URL_new
           (mkOptions (Some "") (Some true) (Some false)) no_options (image photo)).
  reflexivity.
Defined.
